(** * The text-distillation core of [src/app/api/summarize/route.ts]

    A shallow embedding of the summariser (sanitizer, segmenter, tokenizer,
    scorer, selector, composer) and the properties its specification states.

    JavaScript strings are sequences of UTF-16 code units; a string is a
    [list N].  [Map<string, number>] is a [gmap] keyed by strings, [Set<string>]
    a [gset].  Numbers hold counts ([nat]) and scores; a score is the exact
    rational [total / length], the IEEE rounding of the quotient is not
    modelled. *)

From Stdlib Require Import QArith Lqa.
From Stdlib Require Import String Ascii.
From Stdlib Require Import Sorting.Sorted.
From stdpp Require Import gmap list sets.

Local Open Scope N_scope.

(** ** Strings *)

Abbreviation jsstring := (list N).

(** A literal of Basic Latin characters, as code units. *)
Definition str (s : string) : jsstring :=
  map N_of_ascii (list_ascii_of_string s).
Arguments str s%_string_scope.

(** ** Character classes of the regular expressions *)

Definition inRange (lo hi c : N) : bool := (lo <=? c) && (c <=? hi).

(** [\s], which is also the set [String.prototype.trim] strips:
    WhiteSpace and LineTerminator. *)
Definition isWhiteSpace (c : N) : bool :=
  inRange 9 13 c || (c =? 32) || (c =? 160) || (c =? 5760)
  || inRange 8192 8202 c || (c =? 8232) || (c =? 8233) || (c =? 8239)
  || (c =? 8287) || (c =? 12288) || (c =? 65279).

(** [[\u0000-\u001f\u007f]] *)
Definition isControl (c : N) : bool := inRange 0 31 c || (c =? 127).

(** [[.!?]] *)
Definition isTerminal (c : N) : bool := (c =? 46) || (c =? 33) || (c =? 63).

(** [[A-ZÀ-ÖØ-Þ]] *)
Definition isUpper (c : N) : bool :=
  inRange 65 90 c || inRange 192 214 c || inRange 216 222 c.

(** [[:.!?]] *)
Definition isTitleDelimiter (c : N) : bool := (c =? 58) || isTerminal c.

(** [[a-zà-ÿ\s-]], the class whose complement [tokenize] blanks out. *)
Definition isWordChar (c : N) : bool :=
  inRange 97 122 c || inRange 224 255 c || isWhiteSpace c || (c =? 45).

Definition SPACE : N := 32.

Local Close Scope N_scope.

(** ** String primitives *)

Fixpoint dropWhile {A} (p : A → bool) (l : list A) : list A :=
  match l with
  | [] => []
  | x :: r => if p x then dropWhile p r else l
  end.

Fixpoint takeWhile {A} (p : A → bool) (l : list A) : list A :=
  match l with
  | [] => []
  | x :: r => if p x then x :: takeWhile p r else []
  end.

(** [s.trim()] *)
Definition trim (s : jsstring) : jsstring :=
  rev (dropWhile isWhiteSpace (rev (dropWhile isWhiteSpace s))).

(** [s.replace(/\s+/g, " ")]: every maximal run of white space becomes one
    space.  [inRun] tells that the previous code unit was white space. *)
Fixpoint collapseFrom (inRun : bool) (s : jsstring) : jsstring :=
  match s with
  | [] => []
  | c :: r =>
      if isWhiteSpace c
      then (if inRun then collapseFrom true r else SPACE :: collapseFrom true r)
      else c :: collapseFrom false r
  end.

Definition collapseWhiteSpace (s : jsstring) : jsstring := collapseFrom false s.

(** [s.replace(/[class]/g, " ")] for a one-character class. *)
Definition blank (class : N → bool) (s : jsstring) : jsstring :=
  map (λ c, if class c then SPACE else c) s.

(** [arr.slice(0, end)]: a negative [end] counts from the back. *)
Definition slice0 {A} (stop : Z) (l : list A) : list A :=
  if (stop <? 0)%Z
  then take (Z.to_nat (Z.of_nat (length l) + stop)) l
  else take (Z.to_nat stop) l.

(** *** [String.prototype.split] with a regular expression

    A regular expression is given by its matcher: [m before after] is the
    length of the match that starts between [before] (the code units already
    passed, nearest first) and [after], if there is one.  [splitLoop] follows
    the loop of the language specification: [q] walks through the string, [cur]
    holds [S[p..q)] reversed, and after a match of length [S k] the next [k]
    code units belong to the separator ([skip]).  A match is never tried at the
    end of the string; an empty match at [q = p] only advances [q]. *)

Definition matcher := jsstring → jsstring → option nat.

Fixpoint splitLoop (m : matcher) (skip : nat) (before cur after : jsstring)
  : list jsstring :=
  match after with
  | [] => [rev cur]
  | c :: r =>
      match skip with
      | S k => splitLoop m k (c :: before) cur r
      | O =>
          match m before after with
          | Some (S k) => rev cur :: splitLoop m k (c :: before) [] r
          | Some O =>
              match cur with
              | [] => splitLoop m 0 (c :: before) [c] r
              | _ => rev cur :: splitLoop m 0 (c :: before) [c] r
              end
          | None => splitLoop m 0 (c :: before) (c :: cur) r
          end
      end
  end.

Definition jsSplit (m : matcher) (s : jsstring) : list jsstring :=
  match s with
  | [] => match m [] [] with Some _ => [] | None => [[]] end
  | _ => splitLoop m 0 [] [] s
  end.

(** [/(?<=[.!?])\s+(?=[A-ZÀ-ÖØ-Þ])/u]: the code unit before is a terminal
    mark, a run of white space follows, and an upper-case letter ends the run.
    The greedy [\s+] takes the whole run; a shorter one would be followed by
    white space, which is no upper-case letter. *)
Definition startsUpper (s : jsstring) : bool :=
  match s with c :: _ => isUpper c | [] => false end.

Definition sentenceBoundary : matcher := λ before after,
  match before with
  | p :: _ =>
      if isTerminal p then
        match length (takeWhile isWhiteSpace after) with
        | O => None
        | S k =>
            if startsUpper (dropWhile isWhiteSpace after)
            then Some (S k) else None
        end
      else None
  | [] => None
  end.

(** [/\s+/] *)
Definition whiteSpaceRun : matcher := λ _ after,
  match length (takeWhile isWhiteSpace after) with
  | O => None
  | S k => Some (S k)
  end.

(** [/[:.!?]/] *)
Definition titleDelimiter : matcher := λ _ after,
  match after with
  | c :: _ => if isTitleDelimiter c then Some 1%nat else None
  | [] => None
  end.

(** ** The summariser *)

Definition MIN_SENTENCE_LENGTH : nat := 40.
Definition MAX_KEY_POINTS : Z := 6.

Definition sanitizeText (text : jsstring) : jsstring :=
  trim (blank isControl (collapseWhiteSpace text)).

Definition splitIntoSentences (text : jsstring) : list jsstring :=
  filter (λ sentence, MIN_SENTENCE_LENGTH ≤ length sentence)
         (map trim (jsSplit sentenceBoundary text)).

(** *** Tokenizer *)

Definition STOPWORDS : gset jsstring := list_to_set [
  str "a"; str "afin"; str "ai"; str "ainsi";
  str "alors"; str "apr" ++ [232%N] ++ str "s"; str "au"; str "aucun";
  str "aussi"; str "autre"; str "aux"; str "avant"; str "avec"; str "avoir";
  str "bon"; str "car"; str "ce"; str "ceci"; str "cela"; str "ces";
  str "cet"; str "cette"; str "ceux"; str "chaque"; str "comme";
  str "comment"; str "dans"; str "de"; str "des"; str "du"; str "elle";
  str "elles"; str "en"; str "encore"; str "est"; str "et";
  [233%N] ++ str "taient"; [233%N] ++ str "tait"; [234%N] ++ str "tre";
  str "eu"; str "fait"; str "faites"; str "fais"; str "font"; str "ici";
  str "il"; str "ils"; str "je"; str "la"; str "le"; str "les"; str "leur";
  str "leurs"; str "lui"; str "mais"; str "mes"; str "moi"; str "mon";
  str "ne"; str "nos"; str "notre"; str "nous"; str "on"; str "ou";
  str "par"; str "pas"; str "peu"; str "plus"; str "pour"; str "qu";
  str "que"; str "quel"; str "quelle"; str "quelles"; str "quels"; str "qui";
  str "sa"; str "sans"; str "ses"; str "son"; str "sont"; str "sur";
  str "ta"; str "tandis"; str "te"; str "tes"; str "toi"; str "ton";
  str "toujours"; str "tous"; str "tout"; str "toute"; str "toutes";
  str "tu"; str "un"; str "une"; str "vos"; str "votre"; str "vous"; str "y"
].

(** The Unicode tables of the runtime, which the source uses through
    [toLowerCase], [normalize("NFD")] and the property class [\p{Diacritic}]
    (a predicate on code points). *)
Record Unicode := {
  toLowerCase : jsstring → jsstring;
  normalizeNFD : jsstring → jsstring;
  isDiacritic : N → bool
}.

Definition isHighSurrogate (c : N) : bool := inRange 55296 56319 c.
Definition isLowSurrogate (c : N) : bool := inRange 56320 57343 c.
Definition codePoint (hi lo : N) : N :=
  (65536 + (hi - 55296) * 1024 + (lo - 56320))%N.

(** [s.replace(/[class]/gu, "")]: with the [u] flag a surrogate pair is one
    character. *)
Fixpoint removeCodePoints (class : N → bool) (s : jsstring) : jsstring :=
  match s with
  | [] => []
  | c :: r =>
      match r with
      | d :: r' =>
          if isHighSurrogate c && isLowSurrogate d
          then (if class (codePoint c d) then removeCodePoints class r'
                else c :: d :: removeCodePoints class r')
          else (if class c then removeCodePoints class r
                else c :: removeCodePoints class r)
      | [] => if class c then [] else [c]
      end
  end.

Section Summariser.

Variable U : Unicode.

Definition tokenize (sentence : jsstring) : list jsstring :=
  filter (λ token, token ≠ [] ∧ token ∉ STOPWORDS)
    (jsSplit whiteSpaceRun
       (blank (λ c, negb (isWordChar c))
          (removeCodePoints (isDiacritic U)
             (normalizeNFD U (toLowerCase U sentence))))).

(** *** Scorer *)

Definition countToken (freq : gmap jsstring nat) (token : jsstring)
  : gmap jsstring nat :=
  let prev := default 0 (freq !! token) in
  <[token := prev + 1]> freq.

Definition buildFrequencyMap (sentences : list jsstring) : gmap jsstring nat :=
  foldl (λ freq sentence, foldl countToken freq (tokenize sentence))
        ∅ sentences.

Definition quotient (total count : nat) : Q :=
  (inject_Z (Z.of_nat total) / inject_Z (Z.of_nat count))%Q.

Definition scoreSentence (freq : gmap jsstring nat)
    (scores : gmap jsstring Q) (sentence : jsstring) : gmap jsstring Q :=
  let tokens := tokenize sentence in
  match tokens with
  | [] => scores
  | _ =>
      let total :=
        foldl (λ sum token, sum + default 0 (freq !! token)) 0 tokens in
      <[sentence := quotient total (length tokens)]> scores
  end.

Definition scoreSentences (sentences : list jsstring)
    (freq : gmap jsstring nat) : gmap jsstring Q :=
  foldl (scoreSentence freq) ∅ sentences.

End Summariser.

(** *** Selector *)

(** [arr.sort(cmp)]: the sort is stable; [x] goes behind [y] only when
    [cmp x y > 0].  [insertSorted] puts an element that stood before all of
    [l] into the sorted [l]. *)
Fixpoint insertSorted {A} (cmp : A → A → Q) (x : A) (l : list A) : list A :=
  match l with
  | [] => [x]
  | y :: r =>
      match (cmp x y ?= 0)%Q with
      | Gt => y :: insertSorted cmp x r
      | _ => x :: l
      end
  end.

Definition arraySort {A} (cmp : A → A → Q) (l : list A) : list A :=
  foldr (insertSorted cmp) [] l.

Definition scoreOf (scores : gmap jsstring Q) (s : jsstring) : Q :=
  default 0%Q (scores !! s).

Definition byScoreDescending (scores : gmap jsstring Q) (a b : jsstring) : Q :=
  (scoreOf scores b - scoreOf scores a)%Q.

Definition pickTopSentences (sentences : list jsstring)
    (scores : gmap jsstring Q) (limit : Z) : list jsstring :=
  let sorted := arraySort (byScoreDescending scores) sentences in
  let strongest : gset jsstring := list_to_set (slice0 limit sorted) in
  filter (λ sentence, sentence ∈ strongest) sentences.

(** *** Composer *)

Definition DEFAULT_TITLE : jsstring := str "Essentiel du chapitre".

Definition DEFAULT_CALL_TO_ACTION : jsstring :=
  str "Concluez en soulignant la port" ++ [233%N]
  ++ str "e pratique de ces enseignements pour le lecteur.".

Definition CALL_TO_ACTION_LEAD : jsstring :=
  str "Poursuivez le chapitre en d" ++ [233%N] ++ str "veloppant: ".

Definition NO_CONTENT : jsstring :=
  str "Aucun contenu exploitable trouv" ++ [233%N] ++ str " dans ce PDF.".

(** [arr.join(" ")] *)
Fixpoint joinSpace (l : list jsstring) : jsstring :=
  match l with
  | [] => []
  | [s] => s
  | s :: r => s ++ SPACE :: joinSpace r
  end.

Definition buildTitle (sentences : list jsstring) : jsstring :=
  match sentences with
  | [] => DEFAULT_TITLE
  | first :: _ =>
      let snippet := trim (hd [] (jsSplit titleDelimiter first)) in
      if 0 <? length snippet then snippet else DEFAULT_TITLE
  end.

Definition buildThesis (sentences : list jsstring) : jsstring :=
  trim (collapseWhiteSpace (joinSpace (slice0 2 sentences))).

Definition buildCallToAction (sentences : list jsstring) : jsstring :=
  let last := List.last sentences [] in
  match last with
  | [] => DEFAULT_CALL_TO_ACTION
  | _ => CALL_TO_ACTION_LEAD ++ last
  end.

(** *** The pipeline *)

Record Summary := {
  titleSuggestion : jsstring;
  thesis : jsstring;
  keyPoints : list jsstring;
  callToAction : jsstring
}.

(** A call either returns a value or throws [new Error(message)]. *)
Inductive outcome (A : Type) :=
  | Returns (value : A)
  | Throws (message : jsstring).
Arguments Returns {A} value.
Arguments Throws {A} message.

(** The one error of the core, which the specification calls EmptyDocument. *)
Definition EmptyDocument : outcome Summary := Throws NO_CONTENT.

(** The sentences [summarise] works on. *)
Definition segment (text : jsstring) : list jsstring :=
  slice0 180 (splitIntoSentences (sanitizeText text)).

Definition summarise (U : Unicode) (text : jsstring) : outcome Summary :=
  let sanitized := sanitizeText text in
  let sentences := slice0 180 (splitIntoSentences sanitized) in
  match sentences with
  | [] => Throws NO_CONTENT
  | _ =>
      let freq := buildFrequencyMap U sentences in
      let scores := scoreSentences U sentences freq in
      let keySentences := pickTopSentences sentences scores MAX_KEY_POINTS in
      Returns {| titleSuggestion := buildTitle keySentences;
                 thesis := buildThesis sentences;
                 keyPoints := keySentences;
                 callToAction := buildCallToAction sentences |}
  end.

(** *** Unicode tables restricted to Basic Latin

    On text whose code units are all below 128 the runtime's operations are
    these: only [A-Z] have a lower case, nothing decomposes, and the circumflex
    and the grave accent are the only characters with the Diacritic
    property.  They serve to run the summariser on such text. *)
Definition basicLatin : Unicode := {|
  toLowerCase := map (λ c, if inRange 65 90 c then (c + 32)%N else c);
  normalizeNFD := λ s, s;
  isDiacritic := λ c, (c =? 94)%N || (c =? 96)%N
|}.

(** ** Vocabulary of the specification *)

(** A trimmed string neither starts nor ends with white space. *)
Definition trimmed (s : jsstring) : Prop :=
  dropWhile isWhiteSpace s = s ∧ dropWhile isWhiteSpace (rev s) = rev s.

(** Two spaces in a row. *)
Fixpoint hasDoubleSpace (s : jsstring) : bool :=
  match s with
  | c :: (d :: _) as r => ((c =? SPACE)%N && (d =? SPACE)%N) || hasDoubleSpace r
  | _ => false
  end.

(** [a] stands before [b] somewhere in [l]. *)
Definition before (l : list jsstring) (a b : jsstring) : Prop :=
  ∃ i j, i < j ∧ l !! i = Some a ∧ l !! j = Some b.

(** How often [x] occurs in [l]. *)
Definition occurrences (x : jsstring) (l : list jsstring) : nat :=
  length (filter (λ y, y = x) l).

(** All tokens of the document, in order. *)
Definition allTokens (U : Unicode) (sentences : list jsstring)
  : list jsstring :=
  concat (map (tokenize U) sentences).

(** The mean frequency of the tokens of a sentence. *)
Definition meanFrequency (U : Unicode) (freq : gmap jsstring nat)
    (sentence : jsstring) : Q :=
  quotient (sum_list ((λ token, default 0 (freq !! token))
                        <$> tokenize U sentence))
           (length (tokenize U sentence)).

(** The key points [summarise] selects from its sentences. *)
Definition selectKeyPoints (U : Unicode) (sentences : list jsstring)
  : list jsstring :=
  pickTopSentences sentences
    (scoreSentences U sentences (buildFrequencyMap U sentences))
    MAX_KEY_POINTS.

(** [s.includes(sub)] *)
Fixpoint startsWith (s sub : jsstring) : bool :=
  match sub, s with
  | [], _ => true
  | c :: sub', d :: s' => (c =? d)%N && startsWith s' sub'
  | _ :: _, [] => false
  end.

Fixpoint includes (s sub : jsstring) : bool :=
  startsWith s sub ||
  match s with
  | [] => false
  | _ :: s' => includes s' sub
  end.

(** ** Example documents *)

Definition doc_short : jsstring := str "Trop court.".

Definition doc_three : jsstring :=
  str "Le chat noir mange une souris grise dans le jardin. Le chien dort toute la journee sur le vieux canape. Le chat joue avec le chat du voisin chaque matin.".

Definition doc_heading : jsstring :=
  str "  un titre sans ponctuation finale mais assez long pour compter  ".

Definition doc_colon : jsstring :=
  str "Chapitre 1: les origines du projet et ses premiers pas.".

(** Two control characters, U+0001 and U+0002, between two letters, and
    between the first two sentences of a document of 203 code units. *)
Definition two_controls : jsstring := str "a" ++ [1%N; 2%N] ++ str "b".

Definition doc_controls : jsstring :=
  str "Le chat noir mange une souris grise dans le jardin." ++ [1%N; 2%N]
  ++ str "Le chien dort toute la journee sur le vieux canape. Le chat joue avec le chat du voisin chaque matin. Le soir venu la maison retrouve enfin son calme.".

(** A running footer, printed on each of seven pages. *)
Definition footer : jsstring :=
  str "Tous droits reserves pour tous les pays du monde.".

Definition doc_footers : jsstring := joinSpace (replicate 7 footer).

(** Five lines of figures: no letter, hence no token, and no upper-case
    letter to start a second sentence; 224 code units. *)
Definition figures : jsstring :=
  str "1234567890 1234567890 1234567890 1234567890.".

Definition doc_figures : jsstring := joinSpace (replicate 5 figures).

(** 181 sentences: 180 times the same one, then a different one. *)
Definition body_sentence : jsstring :=
  str "Le texte avance pas a pas vers sa conclusion.".

Definition final_sentence : jsstring :=
  str "Voici enfin la conclusion generale du document.".

Definition doc_long : jsstring :=
  joinSpace (replicate 180 body_sentence ++ [final_sentence]).

(** The order the comparator of [pickTopSentences] sorts into. *)
Definition ranksBefore (scores : gmap jsstring Q) (a b : jsstring) : Prop :=
  (scoreOf scores b <= scoreOf scores a)%Q.

#[local] Instance Qlt_decision (a b : Q) : Decision (a < b)%Q.
Proof.
  destruct (Qlt_le_dec a b); [left | right]; [done | by apply Qle_not_lt].
Defined.

(** ** Further vocabulary *)

(** [sub] occurs in [s] as a run of consecutive code units. *)
Definition substringOf (sub s : jsstring) : Prop :=
  ∃ l1 l2, s = l1 ++ sub ++ l2.

(** The last code unit is a terminal mark. *)
Definition endsTerminal (s : jsstring) : bool :=
  match rev s with
  | c :: _ => isTerminal c
  | [] => false
  end.

(** Two white-space code units in a row; [prev] tells that one stands just
    before [s]. *)
Fixpoint wsPairFrom (prev : bool) (s : jsstring) : bool :=
  match s with
  | [] => false
  | c :: r => (prev && isWhiteSpace c) || wsPairFrom (isWhiteSpace c) r
  end.

Definition hasWhiteSpacePair (s : jsstring) : bool := wsPairFrom false s.

(** [[a-zà-ÿ-]]: what is left of [isWordChar] without the white space. *)
Definition isTokenChar (c : N) : bool :=
  inRange 97 122 c || inRange 224 255 c || (c =? 45)%N.

(** Text whose only control characters are white space (tab, line feed,
    vertical tab, form feed, carriage return). *)
Definition noBareControl (s : jsstring) : Prop :=
  Forall (λ c, isControl c = true → isWhiteSpace c = true) s.

Definition doc_layout : jsstring :=
  [9%N] ++ str "Le chat noir   mange une souris grise dans le jardin."
  ++ [13%N; 10%N; 10%N]
  ++ str "Le chien dort toute la journee  sur le vieux canape. " ++ [160%N; 12%N].

(** The piece now being collected starts right behind a separator, at an
    upper-case letter: [skip] code units of white space are still to pass. *)
Definition freshUpper (skip : nat) (cur after : jsstring) : Prop :=
  cur = []
  ∧ Forall (λ c, isWhiteSpace c = true) (take skip after)
  ∧ startsUpper (drop skip after) = true.

(** [cur], when it is not empty, ends at the code unit just passed; when it
    is empty, the code unit just passed is no terminal mark. *)
Definition curFollows (before cur : jsstring) : Prop :=
  match cur with
  | x :: _ => head before = Some x
  | [] => ∀ p, head before = Some p → isTerminal p = false
  end.

Definition doc_mixed : jsstring :=
  str "Le chat noir mange une souris grise dans le jardin. Bref!   Le chien dort toute la journee sur le vieux canape? oui, et le chat joue avec le chat du voisin chaque matin".

(** A code unit that is neither white space nor a control character: what
    the sanitizer and the thesis keep. *)
Definition isInk (c : N) : Prop :=
  isWhiteSpace c = false ∧ isControl c = false.

#[local] Instance isInk_decision (c : N) : Decision (isInk c).
Proof. unfold isInk. apply _. Defined.

(** ** The request handler

    [POST] awaits three things outside the core: the form data of the
    request, the bytes of the uploaded file and the text [extractText] reads
    from them.  The form data and the extraction are inputs here, each either a
    value or what it throws; the bytes of a file come with its entry. *)

Definition MAX_FILE_SIZE : N := 10 * 1024 * 1024.

(** What a [catch] clause receives: an [Error] with its message, or a value
    that is no [Error]. *)
Inductive thrown :=
  | ErrorObject (message : jsstring)
  | OtherValue.

(** [formData.get("file")]: [null], a string field, or a file. *)
Inductive formEntry :=
  | NoEntry
  | StringEntry (value : jsstring)
  | BlobEntry (bytes : list N).

Inductive responseBody :=
  | MessageBody (message : jsstring)
  | SummaryBody (summary : Summary).

Record Response := {
  status : N;
  body : responseBody
}.

Definition MISSING_FILE : jsstring := str "Fichier PDF manquant.".

Definition FILE_TOO_LARGE : jsstring :=
  str "Le fichier d" ++ [233%N] ++ str "passe la taille maximale autoris"
  ++ [233%N] ++ str "e de 10 Mo.".

Definition NOT_ENOUGH_TEXT : jsstring :=
  str "Le document ne contient pas assez de texte pour une synth"
  ++ [232%N] ++ str "se pertinente.".

Definition UNEXPECTED_ERROR : jsstring :=
  str "Une erreur inattendue emp" ++ [234%N] ++ str "che la g" ++ [233%N]
  ++ str "n" ++ [233%N] ++ str "ration de la synth" ++ [232%N] ++ str "se.".

(** The [catch] clause of [POST]. *)
Definition respondToError (e : thrown) : Response :=
  let message :=
    match e with
    | ErrorObject (c :: m) => c :: m
    | _ => UNEXPECTED_ERROR
    end in
  {| status := 500; body := MessageBody message |}.

Definition POST (U : Unicode) (extractText : list N → thrown + jsstring)
    (formData : thrown + formEntry) : Response :=
  match formData with
  | inl e => respondToError e
  | inr (BlobEntry bytes) =>
      if (MAX_FILE_SIZE <? N.of_nat (length bytes))%N
      then {| status := 413; body := MessageBody FILE_TOO_LARGE |}
      else
        match extractText bytes with
        | inl e => respondToError e
        | inr rawText =>
            if match rawText with
               | [] => true
               | _ => length (trim rawText) <? 200
               end
            then {| status := 422; body := MessageBody NOT_ENOUGH_TEXT |}
            else
              match summarise U rawText with
              | Throws message => respondToError (ErrorObject message)
              | Returns summary =>
                  {| status := 200; body := SummaryBody summary |}
              end
        end
  | inr _ => {| status := 400; body := MessageBody MISSING_FILE |}
  end.

(** Thirty short sentences: 419 code units, none of them in a sentence of
    40. *)
Definition doc_short_sentences : jsstring :=
  joinSpace (replicate 30 (str "Oui mais non.")).

(** ** The page *)

Definition NO_FILE_LABEL : jsstring :=
  str "S" ++ [233%N] ++ str "lectionnez un PDF".

(** [fileLabel], from the name of the chosen file if there is one. *)
Definition fileLabel (file : option jsstring) : jsstring :=
  match file with
  | None => NO_FILE_LABEL
  | Some name =>
      if 32 <? length name then take 29 name ++ str "..." else name
  end.

(** The state of the page and the three things that change it: choosing a
    file, submitting the form (the part of [handleSubmit] before it awaits the
    request) and the request settling (the part after). *)
Module Page.

Inductive FetchState := Idle | Loading | Error | Success.

Record File := {
  name : jsstring;
  bytes : list N
}.

Record State := {
  file : option File;
  summary : option Summary;
  status : FetchState;
  error : option jsstring
}.

Definition initial : State :=
  {| file := None; summary := None; status := Idle; error := None |}.

(** How the request ends: a response that is [ok] with its payload, one
    that is not, with the [message] of its body if it has one, or something
    thrown on the way. *)
Inductive fetched :=
  | OkPayload (payload : Summary)
  | NotOk (message : option jsstring)
  | Threw (e : thrown).

Definition ADD_FILE_FIRST : jsstring :=
  str "Ajoutez d" ++ [8217%N] ++ str "abord un fichier PDF.".

Definition NO_SUMMARY : jsstring :=
  str "Impossible de g" ++ [233%N] ++ str "n" ++ [233%N] ++ str "rer le r"
  ++ [233%N] ++ str "sum" ++ [233%N] ++ str ".".

Definition SOME_ERROR : jsstring := str "Une erreur est survenue.".

Inductive event :=
  | Change (next : option File)
  | Submit
  | Settle (outcome : fetched).

(** The [catch] clause of [handleSubmit]. *)
Definition caught (st : State) (e : thrown) : State :=
  {| file := file st;
     summary := None;
     status := Error;
     error := Some match e with
                   | ErrorObject message => message
                   | OtherValue => SOME_ERROR
                   end |}.

Definition step (st : State) (ev : event) : State :=
  match ev with
  | Change next =>
      {| file := next; summary := None; status := Idle; error := error st |}
  | Submit =>
      match file st with
      | None =>
          {| file := file st; summary := summary st; status := status st;
             error := Some ADD_FILE_FIRST |}
      | Some _ =>
          {| file := file st; summary := summary st; status := Loading;
             error := None |}
      end
  | Settle (OkPayload payload) =>
      {| file := file st; summary := Some payload; status := Success;
         error := error st |}
  | Settle (NotOk message) =>
      caught st (ErrorObject (default NO_SUMMARY message))
  | Settle (Threw e) => caught st e
  end.

Definition run (events : list event) : State := foldl step initial events.

(** The results are rendered: [summary && status === "success"]. *)
Definition showsResults (st : State) : bool :=
  match summary st, status st with
  | Some _, Success => true
  | _, _ => false
  end.

(** What holds of every state the page gets into. *)
Definition consistent (st : State) : Prop :=
  (status st = Success → is_Some (summary st))
  ∧ (status st = Error → summary st = None ∧ is_Some (error st))
  ∧ (status st = Loading → is_Some (file st) ∧ error st = None).

End Page.

(** * Properties *)

(** ** Strings: trimming and splitting *)

Section ListScan.
Context {A : Type} (p : A → bool).

Lemma dropWhile_length (l : list A) : length (dropWhile p l) ≤ length l.
Proof. induction l as [|x l IH]; simpl; [lia|]. destruct (p x); simpl; lia. Qed.

Lemma dropWhile_idemp (l : list A) :
  dropWhile p (dropWhile p l) = dropWhile p l.
Proof.
  induction l as [|x l IH]; simpl; [done|].
  destruct (p x) eqn:Hx; [done|]. simpl. by rewrite Hx.
Qed.

Lemma dropWhile_snoc (l : list A) (x : A) :
  p x = false → dropWhile p (l ++ [x]) = dropWhile p l ++ [x].
Proof.
  intros Hx. induction l as [|y l IH]; simpl; [by rewrite Hx|].
  by destruct (p y).
Qed.

Lemma dropWhile_head (l : list A) :
  match dropWhile p l with [] => True | x :: _ => p x = false end.
Proof.
  induction l as [|x l IH]; simpl; [done|].
  destruct (p x) eqn:Hx; [done|]. by simpl.
Qed.

Lemma takeWhile_dropWhile (l : list A) :
  takeWhile p l ++ dropWhile p l = l.
Proof.
  induction l as [|x l IH]; simpl; [done|].
  destruct (p x); simpl; [by rewrite IH | done].
Qed.

Lemma takeWhile_all (l : list A) :
  Forall (λ x, p x = true) l → takeWhile p l = l.
Proof. induction 1 as [|x l Hx _ IH]; simpl; [done|]. by rewrite Hx, IH. Qed.
End ListScan.

Lemma trim_length (s : jsstring) : length (trim s) ≤ length s.
Proof.
  unfold trim. rewrite length_rev.
  etrans; [apply dropWhile_length|]. rewrite length_rev. apply dropWhile_length.
Qed.

Lemma trim_trimmed (s : jsstring) : trimmed (trim s).
Proof.
  unfold trimmed, trim. rewrite rev_involutive, dropWhile_idemp. split; [|done].
  pose proof (dropWhile_head isWhiteSpace s) as Hd.
  destruct (dropWhile isWhiteSpace s) as [|x d]; [done|].
  change (rev (x :: d)) with (rev d ++ [x]).
  rewrite (dropWhile_snoc _ _ _ Hd), rev_app_distr. simpl. by rewrite Hd.
Qed.

Lemma trimmed_trim (s : jsstring) : trimmed s → trim s = s.
Proof.
  intros [H1 H2]. unfold trim. by rewrite H1, H2, rev_involutive.
Qed.

Lemma trim_idemp (s : jsstring) : trim (trim s) = trim s.
Proof. apply trimmed_trim, trim_trimmed. Qed.

(** Every piece [split] returns is no longer than the string. *)
Lemma splitLoop_length (m : matcher) (after : jsstring) :
  ∀ skip before cur,
    Forall (λ piece, length piece ≤ length cur + length after)
           (splitLoop m skip before cur after).
Proof.
  induction after as [|c r IH]; intros skip before cur; simpl.
  - constructor; [rewrite length_rev; lia | constructor].
  - assert (∀ k b cur',
      length cur' ≤ S (length cur) →
      Forall (λ piece, length piece ≤ length cur + S (length r))
             (splitLoop m k b cur' r)) as Hrec.
    { intros k b cur' Hc. eapply Forall_impl; [apply IH|].
      intros piece Hp. simpl in Hp. lia. }
    assert (length (rev cur) ≤ length cur + S (length r)) as Hcur
      by (rewrite length_rev; lia).
    destruct skip as [|k]; [|apply Hrec; lia].
    destruct (m before (c :: r)) as [[|k]|].
    + destruct cur as [|x cur']; [apply Hrec; simpl; lia|].
      constructor; [done | apply Hrec; simpl; lia].
    + constructor; [done | apply Hrec; simpl; lia].
    + apply Hrec. simpl. lia.
Qed.

Lemma jsSplit_length (m : matcher) (s : jsstring) :
  Forall (λ piece, length piece ≤ length s) (jsSplit m s).
Proof.
  destruct s as [|c r]; simpl jsSplit.
  - destruct (m [] []); repeat constructor.
  - apply (splitLoop_length m (c :: r) 0 [] []).
Qed.

(** Where the expression matches nowhere, [split] returns the string whole.
    The sentence boundary needs a terminal mark before it. *)
Lemma splitLoop_no_terminal (after : jsstring) :
  ∀ before cur,
    Forall (λ c, isTerminal c = false) before →
    Forall (λ c, isTerminal c = false) after →
    splitLoop sentenceBoundary 0 before cur after = [rev cur ++ after].
Proof.
  induction after as [|c r IH]; intros before cur Hb Ha; simpl.
  - by rewrite app_nil_r.
  - inversion Ha as [|? ? Hc Hr]; subst.
    assert (sentenceBoundary before (c :: r) = None) as ->.
    { unfold sentenceBoundary. destruct Hb as [|p b Hp _]; [done|].
      by rewrite Hp. }
    rewrite IH; [|by constructor|done].
    simpl. by rewrite <- app_assoc.
Qed.

Lemma jsSplit_no_terminal (text : jsstring) :
  Forall (λ c, isTerminal c = false) text →
  jsSplit sentenceBoundary text = [text].
Proof.
  intros H. destruct text as [|c r]; [done|].
  unfold jsSplit. by rewrite splitLoop_no_terminal.
Qed.

Lemma splitIntoSentences_no_terminal (text : jsstring) :
  Forall (λ c, isTerminal c = false) text →
  splitIntoSentences text =
    if decide (MIN_SENTENCE_LENGTH ≤ length (trim text))
    then [trim text] else [].
Proof.
  intros H. unfold splitIntoSentences. rewrite jsSplit_no_terminal by done.
  simpl map. rewrite filter_cons, filter_nil. done.
Qed.

(** The first piece of a split at [[:.!?]] is the text before the first
    delimiter. *)
Lemma splitLoop_titleDelimiter_hd (after : jsstring) :
  ∀ before cur,
    hd [] (splitLoop titleDelimiter 0 before cur after) =
    rev cur ++ takeWhile (λ c, negb (isTitleDelimiter c)) after.
Proof.
  induction after as [|c r IH]; intros before cur; simpl.
  - by rewrite app_nil_r.
  - destruct (isTitleDelimiter c); simpl.
    + by rewrite app_nil_r.
    + rewrite IH. simpl. by rewrite <- app_assoc.
Qed.

Lemma jsSplit_titleDelimiter_hd (s : jsstring) :
  hd [] (jsSplit titleDelimiter s) =
  takeWhile (λ c, negb (isTitleDelimiter c)) s.
Proof.
  destruct s as [|c r]; [done|].
  unfold jsSplit. by rewrite splitLoop_titleDelimiter_hd.
Qed.

Lemma slice0_nil_iff {A} (n : Z) (l : list A) :
  (0 < n)%Z → slice0 n l = [] ↔ l = [].
Proof.
  intros Hn. unfold slice0.
  destruct (Z.ltb_spec n 0); [lia|].
  destruct l as [|x l]; [by rewrite take_nil|].
  destruct (Z.to_nat n) eqn:E; [lia|]. done.
Qed.

Lemma slice0_sublist {A} (n : Z) (l : list A) : slice0 n l `sublist_of` l.
Proof. unfold slice0. destruct (n <? 0)%Z; apply sublist_take. Qed.

Lemma slice0_length {A} (n : Z) (l : list A) :
  (0 ≤ n)%Z → length (slice0 n l) = Z.to_nat n `min` length l.
Proof.
  intros Hn. unfold slice0. destruct (Z.ltb_spec n 0); [lia|].
  apply length_take.
Qed.

(** ** Sorting by score *)

Section Sorting.
Context {A : Type} (cmp : A → A → Q).

Lemma insertSorted_perm (x : A) (l : list A) : insertSorted cmp x l ≡ₚ x :: l.
Proof.
  induction l as [|y r IH]; simpl; [done|].
  destruct (cmp x y ?= 0)%Q; try done.
  rewrite IH. apply Permutation_swap.
Qed.

Lemma arraySort_perm (l : list A) : arraySort cmp l ≡ₚ l.
Proof.
  induction l as [|x l IH]; simpl; [done|].
  fold (arraySort cmp l). by rewrite insertSorted_perm, IH.
Qed.

Lemma arraySort_length (l : list A) : length (arraySort cmp l) = length l.
Proof. by rewrite arraySort_perm. Qed.

Lemma elem_of_arraySort (x : A) (l : list A) : x ∈ arraySort cmp l ↔ x ∈ l.
Proof. by rewrite arraySort_perm. Qed.
End Sorting.

Lemma insertSorted_ranked (scores : gmap jsstring Q) (x : jsstring)
    (l : list jsstring) :
  StronglySorted (ranksBefore scores) l →
  StronglySorted (ranksBefore scores)
                 (insertSorted (byScoreDescending scores) x l).
Proof.
  induction 1 as [|y r Hr IH Hy]; simpl; [repeat constructor|].
  unfold byScoreDescending at 1.
  destruct (scoreOf scores y - scoreOf scores x ?= 0)%Q eqn:E.
  - apply Qeq_alt in E.
    constructor; [by constructor|]. constructor.
    + unfold ranksBefore. lra.
    + eapply Forall_impl; [exact Hy|]. unfold ranksBefore. intros z Hz. lra.
  - apply Qlt_alt in E.
    constructor; [by constructor|]. constructor.
    + unfold ranksBefore. lra.
    + eapply Forall_impl; [exact Hy|]. unfold ranksBefore. intros z Hz. lra.
  - apply Qgt_alt in E.
    constructor; [done|].
    rewrite insertSorted_perm. constructor; [|done].
    unfold ranksBefore. lra.
Qed.

Lemma arraySort_ranked (scores : gmap jsstring Q) (l : list jsstring) :
  StronglySorted (ranksBefore scores) (arraySort (byScoreDescending scores) l).
Proof.
  induction l as [|x l IH]; simpl; [constructor|].
  by apply insertSorted_ranked.
Qed.

(** In a ranked list nothing behind a sentence of score 0 has a positive
    score. *)
Lemma ranked_positive_before (scores : gmap jsstring Q) (l : list jsstring)
    (i : nat) (s : jsstring) :
  StronglySorted (ranksBefore scores) l →
  l !! i = Some s →
  (scoreOf scores s <= 0)%Q →
  length (filter (λ y, (0 < scoreOf scores y)%Q) l) ≤ i.
Proof.
  intros Hl. revert i. induction Hl as [|y r Hr IH Hy]; intros i Hi Hs.
  - done.
  - destruct i as [|i]; simpl in Hi.
    + injection Hi as ->.
      rewrite filter_cons_False by (intros ?; lra).
      assert (filter (λ y, (0 < scoreOf scores y)%Q) r = []) as ->; [|done].
      clear -Hy Hs. induction Hy as [|z r' Hz _ IH']; [done|].
      rewrite filter_cons_False; [done|].
      unfold ranksBefore in Hz. intros ?. lra.
    + rewrite filter_cons. destruct (decide _); simpl;
        specialize (IH i Hi Hs); lia.
Qed.

(** ** Selector *)

Lemma before_split (l : list jsstring) (a b : jsstring) :
  before l a b ↔ ∃ l1 l2 l3, l = l1 ++ a :: l2 ++ b :: l3.
Proof.
  split.
  - intros (i & j & Hij & Ha & Hb).
    exists (take i l), (take (j - S i) (drop (S i) l)),
           (drop (S (j - S i)) (drop (S i) l)).
    rewrite <- (take_drop_middle l i a Ha) at 1. do 2 f_equal.
    symmetry. apply take_drop_middle.
    rewrite lookup_drop. by replace (S i + (j - S i)) with j by lia.
  - intros (l1 & l2 & l3 & ->).
    exists (length l1), (length l1 + S (length l2)). split; [lia|]. split.
    + by rewrite list_lookup_middle.
    + rewrite lookup_app_r by lia.
      replace (length l1 + S (length l2) - length l1) with (S (length l2))
        by lia.
      simpl. by rewrite list_lookup_middle.
Qed.

Lemma before_filter (P : jsstring → Prop) `{!∀ x, Decision (P x)}
    (l : list jsstring) (a b : jsstring) :
  P a → P b → before l a b → before (filter P l) a b.
Proof.
  intros Ha Hb. rewrite !before_split. intros (l1 & l2 & l3 & ->).
  exists (filter P l1), (filter P l2), (filter P l3).
  rewrite filter_app, filter_cons_True, filter_app, filter_cons_True; done.
Qed.

Lemma pickTopSentences_sublist (sentences : list jsstring)
    (scores : gmap jsstring Q) (limit : Z) :
  pickTopSentences sentences scores limit `sublist_of` sentences.
Proof. apply sublist_filter. Qed.

Lemma elem_of_pickTopSentences (sentences : list jsstring)
    (scores : gmap jsstring Q) (limit : Z) (s : jsstring) :
  s ∈ pickTopSentences sentences scores limit ↔
  s ∈ slice0 limit (arraySort (byScoreDescending scores) sentences).
Proof.
  unfold pickTopSentences. rewrite list_elem_of_filter, elem_of_list_to_set.
  split; [tauto|]. intros H. split; [done|].
  apply (elem_of_arraySort (byScoreDescending scores)).
  eapply elem_of_sublist; [exact H | apply slice0_sublist].
Qed.

Lemma pickTopSentences_before (sentences : list jsstring)
    (scores : gmap jsstring Q) (limit : Z) (s1 s2 : jsstring) :
  s1 ∈ pickTopSentences sentences scores limit →
  s2 ∈ pickTopSentences sentences scores limit →
  before sentences s1 s2 →
  before (pickTopSentences sentences scores limit) s1 s2.
Proof.
  intros H1 H2. unfold pickTopSentences in *.
  apply list_elem_of_filter in H1 as [H1 _].
  apply list_elem_of_filter in H2 as [H2 _].
  by apply before_filter.
Qed.

Lemma pickTopSentences_occurrences (sentences : list jsstring)
    (scores : gmap jsstring Q) (limit : Z) (s : jsstring) :
  s ∈ pickTopSentences sentences scores limit →
  occurrences s (pickTopSentences sentences scores limit) =
  occurrences s sentences.
Proof.
  intros H. unfold pickTopSentences in *.
  apply list_elem_of_filter in H as [H _].
  unfold occurrences. rewrite list_filter_filter. f_equal.
  apply list_filter_iff. intros x. split; [tauto|]. by intros ->.
Qed.

Lemma filter_all {A} (P : A → Prop) `{!∀ x, Decision (P x)} (l : list A) :
  Forall P l → filter P l = l.
Proof.
  induction 1 as [|x l Hx _ IH]; [done|].
  by rewrite filter_cons_True, IH.
Qed.

Lemma filter_length_mono {A} (P R : A → Prop)
    `{!∀ x, Decision (P x)} `{!∀ x, Decision (R x)} (l : list A) :
  Forall (λ x, P x → R x) l →
  length (filter P l) ≤ length (filter R l).
Proof.
  induction 1 as [|x l Hx _ IH]; [done|].
  rewrite !filter_cons.
  destruct (decide (P x)), (decide (R x)); simpl; (lia || tauto).
Qed.

(** Every sentence is selected when the limit covers them all. *)
Lemma pickTopSentences_all (sentences : list jsstring)
    (scores : gmap jsstring Q) (limit : Z) :
  (Z.of_nat (length sentences) ≤ limit)%Z →
  pickTopSentences sentences scores limit = sentences.
Proof.
  intros Hl. unfold pickTopSentences, slice0.
  destruct (Z.ltb_spec limit 0); [lia|].
  rewrite take_ge by (rewrite arraySort_length; lia).
  apply filter_all, Forall_forall. intros x Hx.
  by apply elem_of_list_to_set, elem_of_arraySort.
Qed.

(** A sentence repeated throughout is selected at every occurrence. *)
Lemma pickTopSentences_replicate (s : jsstring) (n : nat)
    (scores : gmap jsstring Q) (limit : Z) :
  (0 < limit)%Z →
  pickTopSentences (replicate n s) scores limit = replicate n s.
Proof.
  intros Hl. destruct n as [|n]; [done|].
  assert (s ∈ pickTopSentences (replicate (S n) s) scores limit) as Hs.
  { apply elem_of_pickTopSentences.
    pose proof (arraySort_perm (byScoreDescending scores) (replicate (S n) s))
      as Hp.
    destruct (arraySort (byScoreDescending scores) (replicate (S n) s))
      as [|y r] eqn:E.
    { apply Permutation_length in Hp. done. }
    assert (y = s) as ->.
    { eapply elem_of_replicate_inv.
      rewrite <- Hp. by left. }
    unfold slice0. destruct (Z.ltb_spec limit 0); [lia|].
    destruct (Z.to_nat limit) eqn:El; [lia|]. simpl. by left. }
  unfold pickTopSentences in *. apply list_elem_of_filter in Hs as [Hs _].
  apply filter_all, Forall_forall. intros x Hx.
  by apply elem_of_replicate_inv in Hx as ->.
Qed.

(** ** Scorer *)

Section Scorer.
Variable U : Unicode.

Lemma foldl_countToken_count (tokens : list jsstring) (t : jsstring) :
  ∀ freq : gmap jsstring nat,
    default 0 (foldl countToken freq tokens !! t) =
    default 0 (freq !! t) + occurrences t tokens.
Proof.
  unfold occurrences.
  induction tokens as [|x l IH]; intros freq; simpl; [lia|].
  rewrite IH, filter_cons. unfold countToken.
  destruct (decide (x = t)) as [->|Hne].
  - rewrite lookup_insert_eq. simpl. lia.
  - rewrite lookup_insert_ne by done. lia.
Qed.

Lemma foldl_countToken_dom (tokens : list jsstring) (t : jsstring) :
  ∀ freq : gmap jsstring nat,
    is_Some (foldl countToken freq tokens !! t) ↔
    is_Some (freq !! t) ∨ t ∈ tokens.
Proof.
  induction tokens as [|x l IH]; intros freq; simpl.
  - rewrite elem_of_nil. tauto.
  - rewrite IH, elem_of_cons. unfold countToken.
    destruct (decide (x = t)) as [->|Hne].
    + rewrite lookup_insert_eq. split; [auto | intros _; left; eauto].
    + rewrite lookup_insert_ne by done. split; [tauto|].
      intros [?|[?|?]]; [auto | congruence | auto].
Qed.

Lemma foldl_sentences_count (sentences : list jsstring) (t : jsstring) :
  ∀ freq : gmap jsstring nat,
    default 0 (foldl (λ freq sentence,
                        foldl countToken freq (tokenize U sentence))
                     freq sentences !! t) =
    default 0 (freq !! t) + occurrences t (allTokens U sentences).
Proof.
  unfold allTokens, occurrences.
  induction sentences as [|s l IH]; intros freq; simpl; [lia|].
  rewrite IH, foldl_countToken_count, filter_app, length_app.
  unfold occurrences. lia.
Qed.

Lemma foldl_sentences_dom (sentences : list jsstring) (t : jsstring) :
  ∀ freq : gmap jsstring nat,
    is_Some (foldl (λ freq sentence,
                      foldl countToken freq (tokenize U sentence))
                   freq sentences !! t) ↔
    is_Some (freq !! t) ∨ t ∈ allTokens U sentences.
Proof.
  unfold allTokens.
  induction sentences as [|s l IH]; intros freq; simpl.
  - rewrite elem_of_nil. tauto.
  - rewrite IH, foldl_countToken_dom, elem_of_app. tauto.
Qed.

Lemma buildFrequencyMap_lookup (sentences : list jsstring) (t : jsstring) :
  buildFrequencyMap U sentences !! t =
  if decide (t ∈ allTokens U sentences)
  then Some (occurrences t (allTokens U sentences)) else None.
Proof.
  pose proof (foldl_sentences_count sentences t ∅) as Hc.
  pose proof (foldl_sentences_dom sentences t ∅) as Hd.
  fold (buildFrequencyMap U sentences) in Hc, Hd.
  rewrite lookup_empty in Hc, Hd. simpl in Hc.
  destruct (decide (t ∈ allTokens U sentences)) as [Hin|Hnin].
  - destruct (proj2 Hd (or_intror Hin)) as [n Hn].
    rewrite Hn in Hc |- *. simpl in Hc. by rewrite Hc.
  - destruct (buildFrequencyMap U sentences !! t) eqn:E; [|done].
    destruct (proj1 Hd (mk_is_Some _ _ eq_refl)) as [[? ?]|?]; done.
Qed.

Lemma occurrences_pos (t : jsstring) (l : list jsstring) :
  t ∈ l → 0 < occurrences t l.
Proof.
  intros H. unfold occurrences.
  assert (t ∈ filter (λ y, y = t) l) as Hf by by apply list_elem_of_filter.
  destruct (filter (λ y, y = t) l); [by apply elem_of_nil in Hf | simpl; lia].
Qed.

(** The sum [tokens.reduce] accumulates. *)
Lemma foldl_total (freq : gmap jsstring nat) (tokens : list jsstring) :
  ∀ sum,
    foldl (λ sum token, sum + default 0 (freq !! token)) sum tokens =
    sum + sum_list ((λ token, default 0 (freq !! token)) <$> tokens).
Proof.
  induction tokens as [|t l IH]; intros sum; simpl; [lia|].
  rewrite IH. symmetry. apply Nat.add_assoc.
Qed.

Lemma scoreSentence_lookup (freq : gmap jsstring nat)
    (scores : gmap jsstring Q) (sentence s : jsstring) :
  scoreSentence U freq scores sentence !! s =
  if decide (sentence = s ∧ tokenize U s ≠ [])
  then Some (meanFrequency U freq s) else scores !! s.
Proof.
  unfold scoreSentence, meanFrequency.
  destruct (decide (sentence = s ∧ tokenize U s ≠ [])) as [[-> Hne]|Hn].
  - destruct (tokenize U s) eqn:E; [done|].
    by rewrite lookup_insert_eq, foldl_total.
  - destruct (tokenize U sentence) eqn:E; [done|].
    rewrite lookup_insert_ne; [done|]. intros ->. apply Hn. by rewrite E.
Qed.

Lemma foldl_scoreSentence_lookup (freq : gmap jsstring nat)
    (sentences : list jsstring) (s : jsstring) :
  ∀ scores : gmap jsstring Q,
    foldl (scoreSentence U freq) scores sentences !! s =
    if decide (s ∈ sentences ∧ tokenize U s ≠ [])
    then Some (meanFrequency U freq s) else scores !! s.
Proof.
  induction sentences as [|x l IH]; intros scores; cbn [foldl].
  - rewrite decide_False; [done|]. rewrite elem_of_nil. tauto.
  - rewrite IH, scoreSentence_lookup.
    destruct (decide (s ∈ l ∧ tokenize U s ≠ [])) as [[? ?]|Hn].
    + rewrite decide_True; [done|]. split; [by right | done].
    + destruct (decide (x = s ∧ tokenize U s ≠ [])) as [[-> ?]|Hn'].
      * rewrite decide_True; [done|]. split; [by left | done].
      * rewrite decide_False; [done|]. rewrite elem_of_cons.
        intros [[->|?] ?]; tauto.
Qed.

Lemma scoreSentences_lookup (freq : gmap jsstring nat)
    (sentences : list jsstring) (s : jsstring) :
  scoreSentences U sentences freq !! s =
  if decide (s ∈ sentences ∧ tokenize U s ≠ [])
  then Some (meanFrequency U freq s) else None.
Proof.
  unfold scoreSentences. by rewrite foldl_scoreSentence_lookup, lookup_empty.
Qed.
End Scorer.

(** ** The pipeline *)

Lemma splitIntoSentences_long (text : jsstring) :
  Forall (λ s, MIN_SENTENCE_LENGTH ≤ length s) (splitIntoSentences text).
Proof.
  apply Forall_forall. intros s Hs. unfold splitIntoSentences in Hs.
  by apply list_elem_of_filter in Hs as [? _].
Qed.

Lemma splitIntoSentences_short (text : jsstring) :
  length text < MIN_SENTENCE_LENGTH → splitIntoSentences text = [].
Proof.
  intros Hlen. unfold splitIntoSentences.
  pose proof (jsSplit_length sentenceBoundary text) as Hp.
  induction Hp as [|piece l Hpiece _ IH]; [done|].
  simpl map. rewrite filter_cons_False; [done|].
  pose proof (trim_length piece). lia.
Qed.

Lemma segment_nil_iff (text : jsstring) :
  segment text = [] ↔ splitIntoSentences (sanitizeText text) = [].
Proof. unfold segment. by apply slice0_nil_iff. Qed.

Lemma segment_take (text : jsstring) :
  segment text = take 180 (splitIntoSentences (sanitizeText text)).
Proof. done. Qed.

Lemma segment_long (text : jsstring) :
  Forall (λ s, MIN_SENTENCE_LENGTH ≤ length s) (segment text).
Proof.
  rewrite segment_take. apply Forall_take, splitIntoSentences_long.
Qed.

Lemma summarise_unfold (U : Unicode) (text : jsstring) :
  summarise U text =
  match segment text with
  | [] => EmptyDocument
  | _ =>
      Returns {| titleSuggestion := buildTitle (selectKeyPoints U (segment text));
                 thesis := buildThesis (segment text);
                 keyPoints := selectKeyPoints U (segment text);
                 callToAction := buildCallToAction (segment text) |}
  end.
Proof. done. Qed.

Lemma summarise_Returns (U : Unicode) (text : jsstring) (r : Summary) :
  summarise U text = Returns r →
  segment text ≠ []
  ∧ keyPoints r = selectKeyPoints U (segment text)
  ∧ titleSuggestion r = buildTitle (keyPoints r)
  ∧ thesis r = buildThesis (segment text)
  ∧ callToAction r = buildCallToAction (segment text).
Proof.
  rewrite summarise_unfold. destruct (segment text) as [|s l] eqn:E; [done|].
  intros [= <-]. done.
Qed.

(** ** The model on small inputs *)

Example split_title : jsSplit titleDelimiter (str "a:b.c?") =
  [str "a"; str "b"; str "c"; []].
Proof. reflexivity. Qed.

Example split_words : jsSplit whiteSpaceRun (str "  a b   c ") =
  [[]; str "a"; str "b"; str "c"; []].
Proof. reflexivity. Qed.

Example split_sentences :
  jsSplit sentenceBoundary (str "Hi there. You ok?  Yes! no. ") =
  [str "Hi there."; str "You ok?"; str "Yes! no. "].
Proof. reflexivity. Qed.

Example slice_negative : slice0 (-1) [1; 2; 3] = [1; 2].
Proof. reflexivity. Qed.

Example sanitize_lines :
  sanitizeText (str "Line one." ++ [10%N; 10%N; 9%N]
                ++ str "Line   two is long enough to count as a sentence surely.")
  = str "Line one. Line two is long enough to count as a sentence surely.".
Proof. reflexivity. Qed.

Example tokenize_chat :
  tokenize basicLatin (str "Le chat mange le chat, l'ami ^est-ce `que") =
  [str "chat"; str "mange"; str "chat"; str "l"; str "ami"; str "est-ce"].
Proof. vm_compute. reflexivity. Qed.

Example sort_stable :
  arraySort (λ a b : nat * nat, inject_Z (Z.of_nat b.1) - inject_Z (Z.of_nat a.1))%Q
    [(1, 0); (3, 1); (1, 2); (3, 3); (2, 4)]
  = [(3, 1); (3, 3); (2, 4); (1, 0); (1, 2)].
Proof. reflexivity. Qed.

Example summarise_three :
  ∃ r, summarise basicLatin doc_three = Returns r
       ∧ titleSuggestion r =
         str "Le chat noir mange une souris grise dans le jardin"
       ∧ length (keyPoints r) = 3.
Proof. eexists. split; [vm_compute; reflexivity|]. split; reflexivity. Qed.

(** ** The sanitizer *)

(** C3: the sanitizer collapses white space first and blanks control
    characters afterwards, so two control characters in a row leave two
    spaces in a row: on the letter a, U+0001, U+0002 and the letter b it
    returns the two letters with two spaces between them, and a document with
    the two characters between two sentences keeps two spaces there. *)
Theorem sanitizeText_double_space :
  sanitizeText two_controls = str "a  b"
  ∧ hasDoubleSpace (sanitizeText two_controls) = true
  ∧ sanitizeText doc_controls =
    str "Le chat noir mange une souris grise dans le jardin.  Le chien dort toute la journee sur le vieux canape. Le chat joue avec le chat du voisin chaque matin. Le soir venu la maison retrouve enfin son calme."
  ∧ hasDoubleSpace (sanitizeText doc_controls) = true.
Proof. repeat split; vm_compute; reflexivity. Qed.

(** What the sanitizer does achieve: no control character is left, and the
    result is trimmed. *)
Lemma isControl_SPACE : isControl SPACE = false.
Proof. reflexivity. Qed.

Lemma sanitizeText_no_control (text : jsstring) :
  Forall (λ c, isControl c = false) (sanitizeText text).
Proof.
  unfold sanitizeText.
  assert (Forall (λ c, isControl c = false)
                 (blank isControl (collapseWhiteSpace text))) as H.
  { unfold blank. apply Forall_forall. intros c Hc.
    apply list_elem_of_fmap in Hc as (d & -> & _).
    destruct (isControl d) eqn:E; [apply isControl_SPACE | done]. }
  revert H. generalize (blank isControl (collapseWhiteSpace text)) as s.
  intros s H. apply Forall_forall. intros c Hc.
  assert (c ∈ s) as Hs; [|by eapply Forall_forall in H].
  unfold trim in Hc. apply list_elem_of_In, in_rev, list_elem_of_In in Hc.
  assert (∀ (l : jsstring) x, x ∈ dropWhile isWhiteSpace l → x ∈ l) as Hd.
  { intros l x. induction l as [|y l IH]; simpl; [done|].
    destruct (isWhiteSpace y); [intros ?; right; auto | done]. }
  apply Hd in Hc. apply list_elem_of_In, in_rev, list_elem_of_In in Hc.
  by apply Hd in Hc.
Qed.

Lemma sanitizeText_trimmed (text : jsstring) : trimmed (sanitizeText text).
Proof. apply trim_trimmed. Qed.

(** ** The segmenter *)

(** C7: sanitized text without any of the terminal marks [.], [!], [?] is
    one sentence, the whole text, when it has at least 40 code units, and no
    sentence otherwise. *)
Theorem splitIntoSentences_unpunctuated (raw : jsstring) :
  let text := sanitizeText raw in
  Forall (λ c, isTerminal c = false) text →
  splitIntoSentences text =
    if decide (MIN_SENTENCE_LENGTH ≤ length text) then [text] else [].
Proof.
  intros text H. rewrite splitIntoSentences_no_terminal by done.
  unfold text. by rewrite (trimmed_trim _ (sanitizeText_trimmed raw)).
Qed.

Lemma splitIntoSentences_unpunctuated_witness :
  splitIntoSentences (sanitizeText doc_heading) = [sanitizeText doc_heading].
Proof.
  rewrite (splitIntoSentences_unpunctuated doc_heading).
  - reflexivity.
  - vm_compute. repeat constructor.
Defined.

(** ** Failure *)

(** C4: [summarise] throws exactly when no sentence of at least 40 code
    units is left after sanitizing, splitting and filtering; what it throws is
    then the one error of the core; text shorter than 40 code units once
    sanitized makes it throw; and when a sentence is left it returns a
    summary. *)
Theorem summarise_throws_iff (U : Unicode) (text : jsstring) :
  (summarise U text = EmptyDocument ↔
   splitIntoSentences (sanitizeText text) = [])
  ∧ (∀ message, summarise U text = Throws message →
       Throws message = EmptyDocument
       ∧ splitIntoSentences (sanitizeText text) = [])
  ∧ (length (sanitizeText text) < MIN_SENTENCE_LENGTH →
     summarise U text = EmptyDocument)
  ∧ (splitIntoSentences (sanitizeText text) ≠ [] →
     ∃ summary, summarise U text = Returns summary).
Proof.
  pose proof (segment_nil_iff text) as Hnil.
  rewrite summarise_unfold.
  destruct (segment text) as [|s l] eqn:E.
  - assert (splitIntoSentences (sanitizeText text) = []) as Hempty
      by by apply Hnil.
    split; [done|]. split; [by intros msg [= <-]|]. split; [done|].
    intros H. by destruct H.
  - assert (splitIntoSentences (sanitizeText text) ≠ []) as Hsome.
    { intros H. by apply Hnil in H. }
    split; [split; [done | intros H; by destruct Hsome]|].
    split; [done|]. split; [|eauto].
    intros H. destruct Hsome. by apply splitIntoSentences_short.
Qed.

Lemma summarise_throws_iff_witness :
  length (sanitizeText doc_short) < MIN_SENTENCE_LENGTH
  ∧ summarise basicLatin doc_short = EmptyDocument
  ∧ ∃ summary, summarise basicLatin doc_three = Returns summary.
Proof.
  assert (length (sanitizeText doc_short) < MIN_SENTENCE_LENGTH) as Hshort
    by (vm_compute; lia).
  split; [exact Hshort|]. split.
  - exact (proj1 (proj2 (proj2 (summarise_throws_iff basicLatin doc_short)))
             Hshort).
  - apply (proj2 (proj2 (proj2 (summarise_throws_iff basicLatin doc_three)))).
    vm_compute. discriminate.
Defined.

(** ** Key points *)

Lemma keyPoints_members (U : Unicode) (text : jsstring) (r : Summary) :
  summarise U text = Returns r →
  keyPoints r `sublist_of` segment text
  ∧ length (keyPoints r) ≤ length (segment text)
  ∧ ∀ s, s ∈ keyPoints r → s ∈ segment text.
Proof.
  intros (_ & -> & _)%summarise_Returns.
  pose proof (pickTopSentences_sublist (segment text)
    (scoreSentences U (segment text) (buildFrequencyMap U (segment text)))
    MAX_KEY_POINTS) as Hsub.
  split; [done|]. split; [by apply sublist_length|].
  intros s Hs. by eapply elem_of_sublist.
Qed.

(** Distinct sentences give at most [limit] key points. *)
Lemma pickTopSentences_length_NoDup (sentences : list jsstring)
    (scores : gmap jsstring Q) (limit : Z) :
  (0 ≤ limit)%Z → NoDup sentences →
  length (pickTopSentences sentences scores limit) ≤ Z.to_nat limit.
Proof.
  intros Hl Hnd.
  set (top := slice0 limit (arraySort (byScoreDescending scores) sentences)).
  assert (length top ≤ Z.to_nat limit) as Htop.
  { unfold top. rewrite slice0_length by done. lia. }
  etrans; [|exact Htop].
  apply submseteq_length, NoDup_submseteq.
  - by apply NoDup_filter.
  - intros x Hx. by apply elem_of_pickTopSentences in Hx.
Qed.

(** C1: seven copies of one sentence of 49 code units, as a running footer
    gives them, are seven segmented sentences and all seven become key
    points, one more than [MAX_KEY_POINTS]: the selected set holds the
    sentence once, and the filter keeps every sentence equal to it. *)
Theorem keyPoints_exceed_MAX_KEY_POINTS (U : Unicode) :
  ∃ r, summarise U doc_footers = Returns r
       ∧ segment doc_footers = replicate 7 footer
       ∧ keyPoints r = replicate 7 footer
       ∧ (MAX_KEY_POINTS < Z.of_nat (length (keyPoints r)))%Z.
Proof.
  assert (segment doc_footers = replicate 7 footer) as Hseg
    by (vm_compute; reflexivity).
  rewrite summarise_unfold, Hseg.
  change (replicate 7 footer) with (footer :: replicate 6 footer) at 1.
  eexists. split; [reflexivity|]. split; [done|]. cbn [keyPoints].
  unfold selectKeyPoints.
  rewrite pickTopSentences_replicate by done. split; [done|].
  rewrite length_replicate. done.
Qed.

(** C5: the key points are a subsequence of the segmented sentences, and two
    key points of which one stands before the other among the sentences stand
    in that order among the key points. *)
Theorem keyPoints_document_order (U : Unicode) (text : jsstring)
    (r : Summary) :
  summarise U text = Returns r →
  keyPoints r `sublist_of` segment text
  ∧ keyPoints r `sublist_of` splitIntoSentences (sanitizeText text)
  ∧ ∀ s1 s2,
      s1 ∈ keyPoints r → s2 ∈ keyPoints r →
      before (segment text) s1 s2 → before (keyPoints r) s1 s2.
Proof.
  intros Hr. pose proof (keyPoints_members U text r Hr) as (Hsub & _ & _).
  split; [done|]. split.
  - etrans; [exact Hsub | apply slice0_sublist].
  - apply summarise_Returns in Hr as (_ & -> & _).
    intros s1 s2. apply pickTopSentences_before.
Qed.

Lemma keyPoints_document_order_witness :
  ∃ r, summarise basicLatin doc_three = Returns r
       ∧ keyPoints r `sublist_of` segment doc_three.
Proof.
  eexists. refine (let H := _ in conj H (proj1 (keyPoints_document_order
    basicLatin doc_three _ H))).
  vm_compute. reflexivity.
Defined.

(** C10: a sentence that is selected is selected at every place it occurs:
    it occurs in the output as often as in the input. *)
Theorem pickTopSentences_collective (sentences : list jsstring)
    (scores : gmap jsstring Q) (limit : Z) (s : jsstring) :
  s ∈ pickTopSentences sentences scores limit →
  occurrences s (pickTopSentences sentences scores limit) =
  occurrences s sentences
  ∧ filter (λ y, y = s) (pickTopSentences sentences scores limit) =
    filter (λ y, y = s) sentences.
Proof.
  intros H. split; [by apply pickTopSentences_occurrences|].
  unfold pickTopSentences in *. apply list_elem_of_filter in H as [H _].
  rewrite list_filter_filter.
  apply list_filter_iff. intros x. split; [tauto|]. by intros ->.
Qed.

Lemma pickTopSentences_collective_witness :
  footer ∈ pickTopSentences [footer; doc_colon; footer] ∅ 1
  ∧ occurrences footer (pickTopSentences [footer; doc_colon; footer] ∅ 1) = 2.
Proof.
  assert (footer ∈ pickTopSentences [footer; doc_colon; footer] ∅ 1) as H.
  { apply (proj2 (elem_of_pickTopSentences
                    [footer; doc_colon; footer] ∅ 1 footer)).
    vm_compute. left. }
  split; [exact H|].
  rewrite (proj1 (pickTopSentences_collective
                    [footer; doc_colon; footer] ∅ 1 footer H)).
  reflexivity.
Defined.

(** ** Frequencies and scores *)

Lemma elem_of_allTokens (U : Unicode) (sentences : list jsstring)
    (s t : jsstring) :
  s ∈ sentences → t ∈ tokenize U s → t ∈ allTokens U sentences.
Proof.
  intros Hs Ht. unfold allTokens. apply list_elem_of_In, in_concat.
  exists (tokenize U s). split; [|by apply list_elem_of_In].
  apply in_map. by apply list_elem_of_In.
Qed.

Lemma buildFrequencyMap_count (U : Unicode) (sentences : list jsstring)
    (t : jsstring) :
  default 0 (buildFrequencyMap U sentences !! t) =
  occurrences t (allTokens U sentences).
Proof.
  pose proof (foldl_sentences_count U sentences t ∅) as H.
  by rewrite lookup_empty in H.
Qed.

Lemma sum_list_at_least (f : jsstring → nat) (l : list jsstring) :
  Forall (λ t, 1 ≤ f t) l → length l ≤ sum_list (f <$> l).
Proof. induction 1 as [|t l Ht _ IH]; csimpl; [done|]. unfold id in *. lia. Qed.

Lemma quotient_pos (total count : nat) :
  0 < count → count ≤ total → (0 < quotient total count)%Q.
Proof.
  intros Hc Ht. unfold quotient.
  apply Qlt_shift_div_l.
  - change 0%Q with (inject_Z 0). rewrite <- Zlt_Qlt. lia.
  - rewrite Qmult_0_l. change 0%Q with (inject_Z 0). rewrite <- Zlt_Qlt. lia.
Qed.

(** A sentence of the document that has tokens has a positive score; one
    without tokens has none. *)
Lemma scoreOf_scorable (U : Unicode) (sentences : list jsstring)
    (s : jsstring) :
  s ∈ sentences → tokenize U s ≠ [] →
  (0 < scoreOf (scoreSentences U sentences (buildFrequencyMap U sentences)) s)%Q.
Proof.
  intros Hs Hne. unfold scoreOf.
  rewrite scoreSentences_lookup, decide_True by done. simpl.
  unfold meanFrequency. apply quotient_pos.
  - destruct (tokenize U s); [done | simpl; lia].
  - apply sum_list_at_least, Forall_forall. intros t Ht.
    rewrite buildFrequencyMap_count.
    apply occurrences_pos. by eapply elem_of_allTokens.
Qed.

Lemma scoreSentences_unscorable (U : Unicode) (sentences : list jsstring)
    (freq : gmap jsstring nat) (s : jsstring) :
  tokenize U s = [] → scoreSentences U sentences freq !! s = None.
Proof.
  intros H. rewrite scoreSentences_lookup, decide_False; [done|].
  intros [_ ?]. done.
Qed.

(** C6: the frequency table holds for each token the number of its
    occurrences in all sentences together, and the score of a sentence with
    tokens is the sum of the frequencies of its tokens divided by their
    number. *)
Theorem frequency_and_score (U : Unicode) (sentences : list jsstring) :
  let freq := buildFrequencyMap U sentences in
  let count := λ t, occurrences t (allTokens U sentences) in
  (∀ t, freq !! t =
        if decide (t ∈ allTokens U sentences) then Some (count t) else None)
  ∧ (∀ s, s ∈ sentences → tokenize U s ≠ [] →
       scoreSentences U sentences freq !! s =
       Some (quotient (sum_list (count <$> tokenize U s))
                      (length (tokenize U s)))).
Proof.
  intros freq count. split; [apply buildFrequencyMap_lookup|].
  intros s Hs Hne. rewrite scoreSentences_lookup, decide_True by done.
  unfold meanFrequency. do 3 f_equal.
  apply list_fmap_ext. intros _ t _. apply buildFrequencyMap_count.
Qed.

Lemma frequency_and_score_witness :
  let sentences := segment doc_three in
  let third := str "Le chat joue avec le chat du voisin chaque matin." in
  buildFrequencyMap basicLatin sentences !! str "chat" = Some 3
  ∧ scoreSentences basicLatin sentences
      (buildFrequencyMap basicLatin sentences) !! third = Some (9 # 5)%Q.
Proof.
  intros sentences third.
  destruct (frequency_and_score basicLatin sentences) as [Hfreq Hscore].
  split.
  - rewrite Hfreq. vm_compute. reflexivity.
  - rewrite (Hscore third).
    + vm_compute. reflexivity.
    + vm_compute. do 2 right. left.
    + vm_compute. discriminate.
Defined.

(** ** Sentences without tokens *)

(** C2, amended: a sentence without tokens has no entry in the score map
    and ranks with score 0, behind every sentence with tokens; it is a key
    point only when fewer than 6 sentences of the document have tokens.  The
    key points are the sentences found among the first 6 of the ranking of
    all sentences, and all sentences when there are at most 6. *)
Theorem unscorable_sentences (U : Unicode) (text : jsstring) (r : Summary) :
  summarise U text = Returns r →
  let sentences := segment text in
  let scores := scoreSentences U sentences (buildFrequencyMap U sentences) in
  let ranking := arraySort (byScoreDescending scores) sentences in
  (∀ s, tokenize U s = [] → scores !! s = None)
  ∧ (∀ s, s ∈ keyPoints r → tokenize U s = [] →
       length (filter (λ x, tokenize U x ≠ []) sentences) < 6)
  ∧ (∀ s, s ∈ keyPoints r ↔ s ∈ take 6 ranking)
  ∧ (length sentences ≤ 6 → keyPoints r = sentences).
Proof.
  intros (_ & -> & _)%summarise_Returns sentences scores ranking.
  split; [intros s; apply scoreSentences_unscorable|].
  split; [|split].
  - intros s Hs Hempty.
    apply (proj1 (elem_of_pickTopSentences sentences scores MAX_KEY_POINTS s))
      in Hs.
    change (s ∈ take 6 ranking) in Hs.
    apply (proj1 (elem_of_take s 6 ranking)) in Hs as (i & Hi & Hlt).
    assert (scoreOf scores s <= 0)%Q as Hzero.
    { unfold scoreOf, scores.
      by rewrite scoreSentences_unscorable. }
    pose proof (ranked_positive_before scores ranking i s
                  (arraySort_ranked scores sentences) Hi Hzero) as Hpos.
    assert (length (filter (λ x, tokenize U x ≠ []) sentences) =
            length (filter (λ x, tokenize U x ≠ []) ranking)) as ->.
    { unfold ranking. by rewrite arraySort_perm. }
    eapply Nat.le_lt_trans; [|exact Hlt].
    etrans; [|exact Hpos].
    apply filter_length_mono, Forall_forall. intros x Hx Hne.
    apply scoreOf_scorable; [|done].
    by apply (elem_of_arraySort (byScoreDescending scores)).
  - intros s.
    apply (elem_of_pickTopSentences sentences scores MAX_KEY_POINTS s).
  - intros Hlen.
    apply (pickTopSentences_all sentences scores MAX_KEY_POINTS).
    unfold MAX_KEY_POINTS. lia.
Qed.

Lemma unscorable_sentences_witness :
  ∃ r, summarise basicLatin doc_figures = Returns r
       ∧ keyPoints r = segment doc_figures.
Proof.
  assert (∃ r, summarise basicLatin doc_figures = Returns r) as [r Hr].
  { eexists. vm_compute. reflexivity. }
  exists r. split; [exact Hr|].
  apply (unscorable_sentences basicLatin doc_figures r Hr).
  vm_compute. lia.
Defined.

(** C2, as stated, fails: five lines of figures are one sentence of 224
    code units without tokens, and it is the key point of the document they
    make up. *)
Lemma unscorable_sentence_selected :
  ∃ s r, summarise basicLatin doc_figures = Returns r
         ∧ segment doc_figures = [s]
         ∧ tokenize basicLatin s = []
         ∧ keyPoints r = [s]
         ∧ s ∈ keyPoints r.
Proof.
  exists doc_figures. eexists.
  split; [vm_compute; reflexivity|]. cbn [keyPoints].
  split; [vm_compute; reflexivity|].
  split; [vm_compute; reflexivity|].
  split; [vm_compute; reflexivity|].
  left.
Qed.

(** ** The call to action *)

Lemma last_long (l : list jsstring) :
  l ≠ [] → Forall (λ s, MIN_SENTENCE_LENGTH ≤ length s) l →
  List.last l [] ≠ [].
Proof.
  intros Hne Hl. destruct (exists_last Hne) as (l' & s & ->).
  rewrite last_last. apply Forall_app in Hl as [_ Hs].
  inversion Hs as [|? ? Hlen _]; subst. intros ->. simpl in Hlen.
  unfold MIN_SENTENCE_LENGTH in Hlen. lia.
Qed.

Lemma buildCallToAction_last (sentences : list jsstring) :
  List.last sentences [] ≠ [] →
  buildCallToAction sentences = CALL_TO_ACTION_LEAD ++ List.last sentences [].
Proof. unfold buildCallToAction. by destruct (List.last sentences []). Qed.

(** C9, amended: the call to action is the lead-in followed by the last of
    the sentences [summarise] keeps, which are the first 180 segmented
    sentences: the last segmented sentence when there are at most 180, the
    180th otherwise. *)
Theorem callToAction_last_kept (U : Unicode) (text : jsstring) (r : Summary) :
  summarise U text = Returns r →
  let all := splitIntoSentences (sanitizeText text) in
  callToAction r = CALL_TO_ACTION_LEAD ++ List.last (take 180 all) []
  ∧ (length all ≤ 180 →
     callToAction r = CALL_TO_ACTION_LEAD ++ List.last all [])
  ∧ (∀ s, all !! 179 = Some s → callToAction r = CALL_TO_ACTION_LEAD ++ s).
Proof.
  intros (Hne & _ & _ & _ & ->)%summarise_Returns all.
  rewrite buildCallToAction_last by (apply last_long; [done | apply segment_long]).
  rewrite segment_take. fold all. split; [done|]. split.
  - intros Hlen. by rewrite take_ge.
  - intros s Hs. by rewrite (take_S_r _ _ _ Hs), last_last.
Qed.

Lemma callToAction_last_kept_witness :
  ∃ r, summarise basicLatin doc_three = Returns r
       ∧ callToAction r =
         CALL_TO_ACTION_LEAD
         ++ str "Le chat joue avec le chat du voisin chaque matin.".
Proof.
  assert (∃ r, summarise basicLatin doc_three = Returns r) as [r Hr].
  { eexists. vm_compute. reflexivity. }
  exists r. split; [exact Hr|].
  rewrite (proj1 (proj2 (callToAction_last_kept basicLatin doc_three r Hr))).
  - reflexivity.
  - vm_compute. lia.
Defined.

(** C9, as stated, fails: of 181 segmented sentences the call to action
    takes the 180th, and the last one does not occur in it. *)
Lemma callToAction_misses_final_sentence :
  ∃ r, summarise basicLatin doc_long = Returns r
       ∧ length (splitIntoSentences (sanitizeText doc_long)) = 181
       ∧ List.last (splitIntoSentences (sanitizeText doc_long)) []
         = final_sentence
       ∧ callToAction r = CALL_TO_ACTION_LEAD ++ body_sentence
       ∧ callToAction r ≠ CALL_TO_ACTION_LEAD ++ final_sentence
       ∧ includes (callToAction r) final_sentence = false.
Proof.
  eexists. split; [vm_compute; reflexivity|]. cbn [callToAction].
  split; [vm_compute; reflexivity|].
  split; [vm_compute; reflexivity|].
  split; [vm_compute; reflexivity|].
  split; [vm_compute; discriminate|].
  vm_compute. reflexivity.
Qed.

(** * Further properties of the code *)

(** ** Character classes *)

Lemma inRange_spec (lo hi c : N) :
  inRange lo hi c = true ↔ (lo ≤ c ∧ c ≤ hi)%N.
Proof. unfold inRange. by rewrite andb_true_iff, !N.leb_le. Qed.

Lemma isWhiteSpace_spec (c : N) :
  isWhiteSpace c = true ↔
  ((9 ≤ c ∧ c ≤ 13) ∨ c = 32 ∨ c = 160 ∨ c = 5760 ∨ (8192 ≤ c ∧ c ≤ 8202)
   ∨ c = 8232 ∨ c = 8233 ∨ c = 8239 ∨ c = 8287 ∨ c = 12288 ∨ c = 65279)%N.
Proof.
  unfold isWhiteSpace.
  rewrite !orb_true_iff, !inRange_spec, !N.eqb_eq. tauto.
Qed.

Lemma isUpper_spec (c : N) :
  isUpper c = true ↔
  ((65 ≤ c ∧ c ≤ 90) ∨ (192 ≤ c ∧ c ≤ 214) ∨ (216 ≤ c ∧ c ≤ 222))%N.
Proof. unfold isUpper. rewrite !orb_true_iff, !inRange_spec. tauto. Qed.

Lemma isTerminal_spec (c : N) :
  isTerminal c = true ↔ (c = 46 ∨ c = 33 ∨ c = 63)%N.
Proof. unfold isTerminal. rewrite !orb_true_iff, !N.eqb_eq. tauto. Qed.

Lemma isControl_spec (c : N) :
  isControl c = true ↔ (c ≤ 31 ∨ c = 127)%N.
Proof.
  unfold isControl. rewrite orb_true_iff, inRange_spec, N.eqb_eq. lia.
Qed.

Lemma isUpper_not_whiteSpace (c : N) :
  isUpper c = true → isWhiteSpace c = false.
Proof.
  rewrite isUpper_spec. intros H. apply not_true_is_false.
  rewrite isWhiteSpace_spec. lia.
Qed.

Lemma isTerminal_not_whiteSpace (c : N) :
  isTerminal c = true → isWhiteSpace c = false.
Proof.
  rewrite isTerminal_spec. intros H. apply not_true_is_false.
  rewrite isWhiteSpace_spec. lia.
Qed.

Lemma isWhiteSpace_SPACE : isWhiteSpace SPACE = true.
Proof. reflexivity. Qed.

(** ** Substrings *)

Lemma substringOf_refl (s : jsstring) : substringOf s s.
Proof. exists [], []. by rewrite app_nil_r. Qed.

Lemma substringOf_trans (a b c : jsstring) :
  substringOf a b → substringOf b c → substringOf a c.
Proof.
  intros (l1 & l2 & ->) (k1 & k2 & ->).
  exists (k1 ++ l1), (l2 ++ k2). by rewrite <- !app_assoc.
Qed.

Lemma substringOf_app_l (a l s : jsstring) :
  substringOf a s → substringOf a (l ++ s).
Proof. intros (l1 & l2 & ->). exists (l ++ l1), l2. by rewrite <- app_assoc. Qed.

Lemma substringOf_app_r (a l s : jsstring) :
  substringOf a s → substringOf a (s ++ l).
Proof.
  intros (l1 & l2 & ->). exists l1, (l2 ++ l). by rewrite <- !app_assoc.
Qed.

Lemma substringOf_length (a s : jsstring) :
  substringOf a s → length a ≤ length s.
Proof. intros (l1 & l2 & ->). rewrite !length_app. lia. Qed.

Lemma substringOf_elem (a s : jsstring) (c : N) :
  substringOf a s → c ∈ a → c ∈ s.
Proof. intros (l1 & l2 & ->) Hc. rewrite !elem_of_app. auto. Qed.

Lemma takeWhile_Forall {A} (p : A → bool) (l : list A) :
  Forall (λ x, p x = true) (takeWhile p l).
Proof.
  induction l as [|x l IH]; simpl; [constructor|].
  destruct (p x) eqn:E; by constructor.
Qed.

(** [trim] cuts white space off both ends and nothing else. *)
Lemma trim_decompose (s : jsstring) :
  ∃ l1 l2, s = l1 ++ trim s ++ l2
           ∧ Forall (λ c, isWhiteSpace c = true) l1
           ∧ Forall (λ c, isWhiteSpace c = true) l2.
Proof.
  exists (takeWhile isWhiteSpace s),
         (rev (takeWhile isWhiteSpace (rev (dropWhile isWhiteSpace s)))).
  split; [|split].
  - unfold trim. rewrite <- rev_app_distr, takeWhile_dropWhile, rev_involutive.
    by rewrite takeWhile_dropWhile.
  - apply takeWhile_Forall.
  - apply Forall_forall. intros c Hc.
    apply list_elem_of_In, in_rev, list_elem_of_In in Hc.
    pose proof (takeWhile_Forall isWhiteSpace
                  (rev (dropWhile isWhiteSpace s))) as H.
    by eapply Forall_forall in H.
Qed.

Lemma trim_substringOf (s : jsstring) : substringOf (trim s) s.
Proof. destruct (trim_decompose s) as (l1 & l2 & H & _). by exists l1, l2. Qed.

Lemma trimmed_head (s : jsstring) (c : N) :
  trimmed s → head s = Some c → isWhiteSpace c = false.
Proof.
  intros [H _] Hc. pose proof (dropWhile_head isWhiteSpace s) as Hd.
  rewrite H in Hd. destruct s; simplify_eq/=. done.
Qed.

Lemma last_head_rev {A} (l : list A) : last l = head (rev l).
Proof.
  induction l as [|x l _] using rev_ind; [done|].
  by rewrite last_snoc, rev_app_distr.
Qed.

Lemma trimmed_last (s : jsstring) (c : N) :
  trimmed s → last s = Some c → isWhiteSpace c = false.
Proof.
  intros [_ H] Hc. rewrite last_head_rev in Hc.
  pose proof (dropWhile_head isWhiteSpace (rev s)) as Hd.
  rewrite H in Hd. destruct (rev s); simplify_eq/=. done.
Qed.

(** Every piece of a split is a substring of the string. *)
Lemma splitLoop_substringOf (m : matcher) (after : jsstring) :
  ∀ skip before cur,
    skip = 0 ∨ cur = [] →
    Forall (λ piece, substringOf piece (rev cur ++ after))
           (splitLoop m skip before cur after).
Proof.
  induction after as [|c r IH]; intros skip before cur Hinv; simpl.
  - constructor; [|constructor]. rewrite app_nil_r. apply substringOf_refl.
  - assert (substringOf (rev cur) (rev cur ++ c :: r)) as Hcur
      by apply substringOf_app_r, substringOf_refl.
    assert (∀ k b,
      Forall (λ piece, substringOf piece (rev cur ++ c :: r))
             (splitLoop m k b [] r)) as Hfresh.
    { intros k b. eapply Forall_impl; [apply (IH k b []); by right|].
      intros piece Hp. simpl in Hp.
      apply substringOf_app_l. by apply (substringOf_app_l _ [c]). }
    assert (∀ b,
      Forall (λ piece, substringOf piece (rev cur ++ c :: r))
             (splitLoop m 0 b [c] r)) as Hone.
    { intros b. eapply Forall_impl; [apply (IH 0 b [c]); by left|].
      intros piece Hp. simpl in Hp. by apply substringOf_app_l. }
    destruct skip as [|k].
    + destruct (m before (c :: r)) as [[|k]|].
      * destruct cur as [|x cur']; [apply Hone|].
        constructor; [done | apply Hone].
      * constructor; [done | apply Hfresh].
      * eapply Forall_impl; [apply (IH 0 _ (c :: cur)); by left|].
        intros piece Hp. simpl in Hp. by rewrite <- app_assoc in Hp.
    + destruct Hinv as [?| ->]; [done|]. apply Hfresh.
Qed.

Lemma jsSplit_substringOf (m : matcher) (s : jsstring) :
  Forall (λ piece, substringOf piece s) (jsSplit m s).
Proof.
  destruct s as [|c r]; simpl jsSplit.
  - destruct (m [] []); repeat constructor. apply substringOf_refl.
  - apply (splitLoop_substringOf m (c :: r) 0 [] []). by left.
Qed.

(** ** White-space runs *)

Lemma collapseFrom_elem (s : jsstring) :
  ∀ b c, c ∈ collapseFrom b s →
         c = SPACE ∨ (c ∈ s ∧ isWhiteSpace c = false).
Proof.
  induction s as [|x s IH]; intros b c; simpl; [by intros ?%elem_of_nil|].
  destruct (isWhiteSpace x) eqn:Hx.
  - destruct b.
    + intros [?|[? ?]]%IH; [by left | right; split; [by right | done]].
    + intros [->|[?|[? ?]]%IH]%elem_of_cons;
        [by left | by left | right; split; [by right | done]].
  - intros [->|[?|[? ?]]%IH]%elem_of_cons.
    + right. split; [by left | done].
    + by left.
    + right. split; [by right | done].
Qed.

Lemma collapseFrom_length (s : jsstring) :
  ∀ b, length (collapseFrom b s) ≤ length s.
Proof.
  induction s as [|x s IH]; intros b; simpl; [done|].
  pose proof (IH true). pose proof (IH false).
  destruct (isWhiteSpace x), b; simpl; lia.
Qed.

Lemma wsPairFrom_collapseFrom (s : jsstring) :
  ∀ b, wsPairFrom b (collapseFrom b s) = false.
Proof.
  induction s as [|x s IH]; intros b; simpl; [done|].
  destruct (isWhiteSpace x) eqn:Hx.
  - destruct b; [apply IH|]. simpl. apply IH.
  - simpl. rewrite Hx, IH. by destruct b.
Qed.

Lemma wsPairFrom_mono (s : jsstring) (b : bool) :
  wsPairFrom b s = false → wsPairFrom false s = false.
Proof. destruct s as [|c r]; simpl; [done|]. by intros [_ ?]%orb_false_iff. Qed.

(** A pair of white-space code units anywhere in the string is found. *)
Lemma wsPairFrom_found (l1 l2 : jsstring) (c d : N) :
  isWhiteSpace c = true → isWhiteSpace d = true →
  ∀ b, wsPairFrom b (l1 ++ c :: d :: l2) = true.
Proof.
  intros Hc Hd. induction l1 as [|x l1 IH]; intros b; simpl.
  - rewrite Hc, Hd. simpl. by rewrite orb_true_r.
  - rewrite IH. by rewrite orb_true_r.
Qed.

Lemma wsPairFrom_inv (s : jsstring) :
  ∀ b, wsPairFrom b s = true →
       (b = true ∧ ∃ c r, s = c :: r ∧ isWhiteSpace c = true)
       ∨ ∃ l1 c d l2, s = l1 ++ c :: d :: l2
                      ∧ isWhiteSpace c = true ∧ isWhiteSpace d = true.
Proof.
  induction s as [|x s IH]; intros b; simpl; [done|].
  intros [[-> Hx]%andb_true_iff|H]%orb_true_iff; [left; eauto|].
  right. apply IH in H as [(Hx & c & r & -> & Hc)|(l1 & c & d & l2 & -> & ? & ?)].
  - by exists [], x, c, r.
  - by exists (x :: l1), c, d, l2.
Qed.

Lemma hasWhiteSpacePair_substringOf (t s : jsstring) :
  substringOf t s → hasWhiteSpacePair s = false → hasWhiteSpacePair t = false.
Proof.
  intros (k1 & k2 & ->) Hs. apply not_true_is_false. intros Ht.
  apply wsPairFrom_inv in Ht as [[? _]|(l1 & c & d & l2 & -> & Hc & Hd)];
    [done|].
  unfold hasWhiteSpacePair in Hs.
  replace (k1 ++ (l1 ++ c :: d :: l2) ++ k2)
    with ((k1 ++ l1) ++ c :: d :: (l2 ++ k2)) in Hs
    by (by rewrite <- !app_assoc).
  by rewrite wsPairFrom_found in Hs.
Qed.

Lemma hasDoubleSpace_wsPairFrom (s : jsstring) :
  ∀ b, hasDoubleSpace s = true → wsPairFrom b s = true.
Proof.
  induction s as [|c r IH]; intros b; [done|].
  destruct r as [|d r']; [done|].
  change (hasDoubleSpace (c :: d :: r'))
    with (((c =? SPACE)%N && (d =? SPACE)%N) || hasDoubleSpace (d :: r')).
  change (wsPairFrom b (c :: d :: r'))
    with ((b && isWhiteSpace c) || wsPairFrom (isWhiteSpace c) (d :: r')).
  intros [[->%N.eqb_eq ->%N.eqb_eq]%andb_true_iff|H]%orb_true_iff.
  - simpl. by rewrite orb_true_r.
  - by rewrite (IH _ H), orb_true_r.
Qed.

(** A string without white-space pairs whose white space is spaces is left
    as it is. *)
Lemma collapseFrom_fixed (s : jsstring) :
  ∀ b, wsPairFrom b s = false →
       Forall (λ c, isWhiteSpace c = true → c = SPACE) s →
       collapseFrom b s = s.
Proof.
  induction s as [|x s IH]; intros b Hp Hs; simpl in *; [done|].
  inversion Hs as [|? ? Hx Hs']; subst.
  apply orb_false_iff in Hp as [Hb Hp].
  destruct (isWhiteSpace x) eqn:E.
  - rewrite andb_true_r in Hb. subst b.
    rewrite IH by done. f_equal. symmetry. by apply Hx.
  - by rewrite IH.
Qed.

Lemma blank_fixed (class : N → bool) (s : jsstring) :
  Forall (λ c, class c = false) s → blank class s = s.
Proof.
  unfold blank. induction 1 as [|c s Hc _ IH]; simpl; [done|].
  by rewrite Hc, IH.
Qed.

(** ** The sanitizer, further *)

Lemma blank_collapse_elem (text : jsstring) (c : N) :
  c ∈ blank isControl (collapseWhiteSpace text) →
  c = SPACE ∨ (c ∈ text ∧ isWhiteSpace c = false ∧ isControl c = false).
Proof.
  unfold blank. intros (d & -> & Hd)%list_elem_of_fmap.
  destruct (isControl d) eqn:E; [by left|].
  apply collapseFrom_elem in Hd as [->|[? ?]]; [by left | by right].
Qed.

Lemma sanitizeText_elem (text : jsstring) (c : N) :
  c ∈ sanitizeText text →
  c = SPACE ∨ (c ∈ text ∧ isWhiteSpace c = false ∧ isControl c = false).
Proof.
  intros Hc. apply blank_collapse_elem.
  eapply substringOf_elem; [apply trim_substringOf | exact Hc].
Qed.

(** X1: the sanitizer invents nothing and leaves no layout behind: each
    code unit of its result is a space or a code unit of the input that is
    neither white space nor a control character, and the result neither
    starts nor ends with white space. *)
Theorem sanitizeText_alphabet (text : jsstring) :
  (∀ c, c ∈ sanitizeText text →
        c = SPACE
        ∨ (c ∈ text ∧ isWhiteSpace c = false ∧ isControl c = false))
  ∧ (∀ c, head (sanitizeText text) = Some c → isWhiteSpace c = false)
  ∧ (∀ c, last (sanitizeText text) = Some c → isWhiteSpace c = false).
Proof.
  split; [|split].
  - apply sanitizeText_elem.
  - intros c. apply trimmed_head, sanitizeText_trimmed.
  - intros c. apply trimmed_last, sanitizeText_trimmed.
Qed.

Lemma sanitizeText_alphabet_witness :
  head (sanitizeText doc_layout) = Some 76%N ∧ isWhiteSpace 76 = false.
Proof.
  assert (head (sanitizeText doc_layout) = Some 76%N) as H
    by (vm_compute; reflexivity).
  split; [exact H|].
  exact (proj1 (proj2 (sanitizeText_alphabet doc_layout)) _ H).
Defined.

(** X2: the sanitizer never lengthens the text. *)
Theorem sanitizeText_length (text : jsstring) :
  length (sanitizeText text) ≤ length text.
Proof.
  unfold sanitizeText. etrans; [apply trim_length|].
  unfold blank. rewrite length_map. apply collapseFrom_length.
Qed.

(** X3: on text whose control characters are all white space the sanitizer
    does collapse every white-space run: its result has no two white-space
    code units in a row, in particular no two spaces, and sanitizing the
    result again changes nothing. *)
Theorem sanitizeText_single_spaced (text : jsstring) :
  noBareControl text →
  hasWhiteSpacePair (sanitizeText text) = false
  ∧ hasDoubleSpace (sanitizeText text) = false
  ∧ sanitizeText (sanitizeText text) = sanitizeText text.
Proof.
  intros Hctl.
  assert (blank isControl (collapseWhiteSpace text) = collapseWhiteSpace text)
    as Hblank.
  { apply blank_fixed, Forall_forall. intros c Hc.
    apply collapseFrom_elem in Hc as [->|[Hin Hws]]; [done|].
    apply not_true_is_false. intros Hcc.
    eapply Forall_forall in Hctl; [|exact Hin]. by rewrite (Hctl Hcc) in Hws. }
  assert (hasWhiteSpacePair (sanitizeText text) = false) as Hpair.
  { unfold sanitizeText. rewrite Hblank.
    eapply hasWhiteSpacePair_substringOf; [apply trim_substringOf|].
    apply wsPairFrom_collapseFrom. }
  split; [done|]. split.
  - apply not_true_is_false. intros H.
    apply (hasDoubleSpace_wsPairFrom _ false) in H.
    unfold hasWhiteSpacePair in Hpair. by rewrite H in Hpair.
  - pose proof (sanitizeText_elem text) as Helem.
    unfold sanitizeText at 1. unfold collapseWhiteSpace.
    rewrite collapseFrom_fixed; [|done|].
    + rewrite blank_fixed; [apply trimmed_trim, sanitizeText_trimmed|].
      apply sanitizeText_no_control.
    + apply Forall_forall. intros c Hc Hws.
      apply Helem in Hc as [?|(_ & Hn & _)]; [done|]. by rewrite Hws in Hn.
Qed.

Lemma sanitizeText_single_spaced_witness :
  noBareControl doc_layout
  ∧ sanitizeText doc_layout =
    str "Le chat noir mange une souris grise dans le jardin. Le chien dort toute la journee sur le vieux canape."
  ∧ hasDoubleSpace (sanitizeText doc_layout) = false.
Proof.
  assert (noBareControl doc_layout) as H.
  { unfold noBareControl. apply Forall_forall. intros c Hc Hctl.
    apply isControl_spec in Hctl. apply isWhiteSpace_spec.
    vm_compute in Hc. repeat (apply elem_of_cons in Hc as [->|Hc]; [lia|]).
    by apply elem_of_nil in Hc. }
  split; [exact H|]. split; [vm_compute; reflexivity|].
  exact (proj1 (proj2 (sanitizeText_single_spaced doc_layout H))).
Defined.

(** ** The segmenter, further *)

Lemma take_takeWhile {A} (p : A → bool) (l : list A) :
  take (length (takeWhile p l)) l = takeWhile p l.
Proof.
  induction l as [|x l IH]; simpl; [done|].
  destruct (p x); simpl; [by rewrite IH | done].
Qed.

Lemma drop_takeWhile {A} (p : A → bool) (l : list A) :
  drop (length (takeWhile p l)) l = dropWhile p l.
Proof.
  induction l as [|x l IH]; simpl; [done|].
  destruct (p x); simpl; [by rewrite IH | done].
Qed.

(** What a match of the sentence boundary says about its place. *)
Lemma sentenceBoundary_Some (before after : jsstring) (n : nat) :
  sentenceBoundary before after = Some n →
  ∃ p before' c after' k,
    before = p :: before' ∧ isTerminal p = true
    ∧ after = c :: after' ∧ isWhiteSpace c = true
    ∧ n = S k ∧ length (takeWhile isWhiteSpace after') = k
    ∧ startsUpper (dropWhile isWhiteSpace after') = true.
Proof.
  unfold sentenceBoundary. destruct before as [|p before']; [done|].
  destruct (isTerminal p) eqn:Hp; [|done].
  destruct after as [|c after']; [done|]. simpl.
  destruct (isWhiteSpace c) eqn:Hc; [|done]. simpl.
  destruct (startsUpper (dropWhile isWhiteSpace after')) eqn:Hu; [|done].
  intros [= <-]. by exists p, before', c, after', (length (takeWhile isWhiteSpace after')).
Qed.

Lemma splitLoop_sentence_keeps (after : jsstring) :
  ∀ skip before cur,
    Forall (λ c, isWhiteSpace c = true) (take skip after) →
    filter (λ c, isWhiteSpace c = false)
           (concat (splitLoop sentenceBoundary skip before cur after)) =
    filter (λ c, isWhiteSpace c = false) (rev cur ++ after).
Proof.
  induction after as [|c r IH]; intros skip before cur Hskip; cbn [splitLoop].
  - simpl. by rewrite app_nil_r.
  - destruct skip as [|k].
    + destruct (sentenceBoundary before (c :: r)) as [n|] eqn:E.
      * apply sentenceBoundary_Some in E
          as (p & b' & c' & r' & k & -> & _ & [= <- <-] & Hc & -> & Hk & _).
        cbn [concat]. rewrite !filter_app, IH.
        -- simpl. rewrite (filter_cons_False _ c) by by rewrite Hc. done.
        -- rewrite <- Hk, take_takeWhile. apply takeWhile_Forall.
      * rewrite IH by (simpl; constructor).
        simpl. by rewrite <- app_assoc.
    + simpl in Hskip. inversion Hskip as [|? ? Hc Hr]; subst.
      rewrite IH by done. rewrite !filter_app.
      rewrite (filter_cons_False _ c) by by rewrite Hc. done.
Qed.

Lemma startsUpper_snoc (s : jsstring) (c : N) :
  startsUpper s = true → startsUpper (s ++ [c]) = true.
Proof. by destruct s. Qed.

Lemma splitLoop_sentence_upper (after : jsstring) :
  ∀ skip before cur,
    (skip ≠ 0 → freshUpper skip cur after) →
    ∃ first rest,
      splitLoop sentenceBoundary skip before cur after = first :: rest
      ∧ Forall (λ p, startsUpper p = true) rest
      ∧ (startsUpper (rev cur) = true ∨ freshUpper skip cur after →
         startsUpper first = true).
Proof.
  induction after as [|c r IH]; intros skip before cur Hskip; cbn [splitLoop].
  - exists (rev cur), []. split; [done|]. split; [constructor|].
    intros [H|(-> & _ & H)]; [done|]. by rewrite drop_nil in H.
  - destruct skip as [|k].
    + destruct (sentenceBoundary before (c :: r)) as [n|] eqn:E.
      * apply sentenceBoundary_Some in E
          as (p & b' & c' & r' & k & -> & _ & [= <- <-] & Hc & -> & Hk & Hu).
        assert (freshUpper k [] r) as Hfresh.
        { split; [done|]. rewrite <- Hk, take_takeWhile, drop_takeWhile.
          split; [apply takeWhile_Forall | done]. }
        destruct (IH k (c :: p :: b') [] (λ _, Hfresh))
          as (first' & rest' & -> & Hrest & Hfirst).
        exists (rev cur), (first' :: rest'). split; [done|]. split.
        -- constructor; [apply Hfirst; by right | done].
        -- intros [H|(-> & _ & H)]; [done|]. simpl in H.
           apply isUpper_not_whiteSpace in H. by rewrite H in Hc.
      * destruct (IH 0 (c :: before) (c :: cur)) as (first & rest & -> & Hrest & Hfirst);
          [done|].
        exists first, rest. split; [done|]. split; [done|].
        intros H. apply Hfirst. left. simpl.
        destruct H as [H|(-> & _ & H)]; [by apply startsUpper_snoc | done].
    + destruct (Hskip ltac:(done)) as (-> & Hws & Hu). simpl in Hws, Hu.
      inversion Hws as [|? ? Hc Hr]; subst.
      assert (freshUpper k [] r) as Hfresh by done.
      destruct (IH k (c :: before) [] (λ _, Hfresh))
        as (first & rest & -> & Hrest & Hfirst).
      exists first, rest. split; [done|]. split; [done|].
      intros _. apply Hfirst. by right.
Qed.

Lemma splitLoop_sentence_terminal (after : jsstring) :
  ∀ skip before cur,
    curFollows before cur →
    (skip ≠ 0 →
     cur = [] ∧ Forall (λ c, isWhiteSpace c = true) (take skip after)) →
    ∃ init final,
      splitLoop sentenceBoundary skip before cur after = init ++ [final]
      ∧ Forall (λ p, endsTerminal p = true) init.
Proof.
  assert (∀ c b, isWhiteSpace c = true → curFollows (c :: b) []) as Hws.
  { intros c b Hc p [= <-]. apply not_true_is_false.
    intros H%isTerminal_not_whiteSpace. by rewrite H in Hc. }
  induction after as [|c r IH]; intros skip before cur Hcur Hskip;
    cbn [splitLoop].
  - by exists [], (rev cur).
  - destruct skip as [|k].
    + destruct (sentenceBoundary before (c :: r)) as [n|] eqn:E.
      * apply sentenceBoundary_Some in E
          as (p & b' & c' & r' & k & -> & Hp & [= <- <-] & Hc & -> & Hk & _).
        destruct (IH k (c :: p :: b') []) as (init & final & -> & Hinit).
        { by apply Hws. }
        { intros _. split; [done|].
          rewrite <- Hk, take_takeWhile. apply takeWhile_Forall. }
        exists (rev cur :: init), final. split; [done|].
        constructor; [|done]. unfold endsTerminal. rewrite rev_involutive.
        destruct cur as [|x cur']; simpl in Hcur.
        -- by rewrite (Hcur p eq_refl) in Hp.
        -- by injection Hcur as ->.
      * destruct (IH 0 (c :: before) (c :: cur)) as (init & final & -> & Hinit);
          [done | done |].
        by exists init, final.
    + destruct (Hskip ltac:(done)) as (-> & Hr). simpl in Hr.
      inversion Hr as [|? ? Hc Hr']; subst.
      destruct (IH k (c :: before) []) as (init & final & -> & Hinit);
        [by apply Hws | done |].
      by exists init, final.
Qed.

Lemma startsUpper_trim (p : jsstring) :
  startsUpper p = true → startsUpper (trim p) = true.
Proof.
  destruct p as [|c r]; [done|]. simpl. intros Hc.
  pose proof (isUpper_not_whiteSpace c Hc) as Hws.
  unfold trim. simpl dropWhile at 2. rewrite Hws.
  change (rev (c :: r)) with (rev r ++ [c]).
  rewrite (dropWhile_snoc _ _ _ Hws), rev_app_distr. done.
Qed.

Lemma endsTerminal_trim (p : jsstring) :
  endsTerminal p = true → endsTerminal (trim p) = true.
Proof.
  unfold endsTerminal, trim. rewrite rev_involutive.
  destruct (rev (dropWhile isWhiteSpace p)) as [|c r] eqn:E.
  - assert (dropWhile isWhiteSpace p = []) as Hd.
    { apply (f_equal (@rev N)) in E. by rewrite rev_involutive in E. }
    destruct (rev p) as [|d r'] eqn:Ep; [done|]. intros Hd'.
    apply isTerminal_not_whiteSpace in Hd'.
    assert (d ∈ dropWhile isWhiteSpace p) as Hin; [|by rewrite Hd in Hin; apply elem_of_nil in Hin].
    apply (f_equal (@rev N)) in Ep. rewrite rev_involutive in Ep. subst p.
    simpl. rewrite (dropWhile_snoc _ _ _ Hd'). apply elem_of_app. right. by left.
  - pose proof (trim_decompose p) as (l1 & l2 & Hp & Hl1 & _).
    destruct (rev p) as [|d r'] eqn:Ep; [done|]. intros Hd.
    pose proof (isTerminal_not_whiteSpace d Hd) as Hws.
    assert (rev (dropWhile isWhiteSpace p) = d :: rev (dropWhile isWhiteSpace (rev r'))) as Hrd.
    { apply (f_equal (@rev N)) in Ep. rewrite rev_involutive in Ep. subst p.
      simpl. by rewrite (dropWhile_snoc _ _ _ Hws), rev_app_distr. }
    rewrite Hrd in E. injection E as <- _. simpl. by rewrite Hws.
Qed.

Lemma splitIntoSentences_substringOf (text s : jsstring) :
  s ∈ splitIntoSentences text → substringOf s text.
Proof.
  unfold splitIntoSentences.
  intros [_ (p & -> & Hp)%list_elem_of_fmap]%list_elem_of_filter.
  eapply substringOf_trans; [apply trim_substringOf|].
  pose proof (jsSplit_substringOf sentenceBoundary text) as H.
  by eapply Forall_forall in H.
Qed.

Lemma splitIntoSentences_trimmed (text s : jsstring) :
  s ∈ splitIntoSentences text → trimmed s.
Proof.
  unfold splitIntoSentences.
  intros [_ (p & -> & _)%list_elem_of_fmap]%list_elem_of_filter.
  apply trim_trimmed.
Qed.

(** X4: every sentence of the segmenter has at least 40 code units, is a
    run of consecutive code units of the text it was split from, and neither
    starts nor ends with white space. *)
Theorem splitIntoSentences_sentence (text s : jsstring) :
  s ∈ splitIntoSentences text →
  MIN_SENTENCE_LENGTH ≤ length s
  ∧ length s ≤ length text
  ∧ substringOf s text
  ∧ (∀ c, head s = Some c → isWhiteSpace c = false)
  ∧ (∀ c, last s = Some c → isWhiteSpace c = false).
Proof.
  intros Hs.
  pose proof (splitIntoSentences_substringOf text s Hs) as Hsub.
  pose proof (splitIntoSentences_trimmed text s Hs) as Htrim.
  pose proof (splitIntoSentences_long text) as Hlong.
  eapply Forall_forall in Hlong; [|exact Hs].
  split; [done|]. split; [by apply substringOf_length|]. split; [done|].
  split; intros c; [by apply trimmed_head | by apply trimmed_last].
Qed.

Lemma splitIntoSentences_sentence_witness :
  str "Le chien dort toute la journee sur le vieux canape? oui, et le chat joue avec le chat du voisin chaque matin"
    ∈ splitIntoSentences doc_mixed
  ∧ substringOf
      (str "Le chien dort toute la journee sur le vieux canape? oui, et le chat joue avec le chat du voisin chaque matin")
      doc_mixed.
Proof.
  assert (str "Le chien dort toute la journee sur le vieux canape? oui, et le chat joue avec le chat du voisin chaque matin"
            ∈ splitIntoSentences doc_mixed) as H.
  { vm_compute. right. left. }
  split; [exact H|].
  exact (proj1 (proj2 (proj2 (splitIntoSentences_sentence doc_mixed _ H)))).
Defined.

(** X5: every piece of the split but the first starts with an upper-case
    letter of the class the boundary looks ahead for; so when the text itself
    starts with one, every sentence does. *)
Theorem splitIntoSentences_upper (text : jsstring) :
  (∃ first rest,
     jsSplit sentenceBoundary text = first :: rest
     ∧ Forall (λ p, startsUpper p = true) rest)
  ∧ (startsUpper text = true →
     Forall (λ s, startsUpper s = true) (splitIntoSentences text)).
Proof.
  destruct text as [|c r].
  { split; [by exists [], [] | done]. }
  unfold splitIntoSentences, jsSplit.
  destruct (splitLoop_sentence_upper (c :: r) 0 [] [])
    as (first & rest & -> & Hrest & Hfirst); [done|].
  split; [by exists first, rest|].
  intros Hu. apply Forall_forall.
  intros s [_ (p & -> & Hp)%list_elem_of_fmap]%list_elem_of_filter.
  apply startsUpper_trim.
  apply elem_of_cons in Hp as [->|Hp].
  - apply Hfirst. right. by split.
  - by eapply Forall_forall in Hrest.
Qed.

Lemma splitIntoSentences_upper_witness :
  Forall (λ s, startsUpper s = true) (splitIntoSentences doc_mixed).
Proof.
  apply (proj2 (splitIntoSentences_upper doc_mixed)). reflexivity.
Defined.

(** X6: the terminal mark stays with its sentence: every sentence of the
    segmenter but the last one ends with [.], [!] or [?]. *)
Theorem splitIntoSentences_terminal (text : jsstring)
    (init : list jsstring) (final : jsstring) :
  splitIntoSentences text = init ++ [final] →
  Forall (λ s, endsTerminal s = true) init.
Proof.
  unfold splitIntoSentences.
  assert (∃ pinit pfinal,
    jsSplit sentenceBoundary text = pinit ++ [pfinal]
    ∧ Forall (λ p, endsTerminal p = true) pinit)
    as (pinit & pfinal & -> & Hp).
  { destruct text as [|c r]; [by exists [], []|].
    by apply (splitLoop_sentence_terminal (c :: r) 0 [] []). }
  rewrite map_app, filter_app.
  assert (Forall (λ s, endsTerminal s = true)
            (filter (λ s, MIN_SENTENCE_LENGTH ≤ length s) (map trim pinit)))
    as Hinit.
  { apply Forall_forall.
    intros s [_ (p & -> & Hin)%list_elem_of_fmap]%list_elem_of_filter.
    apply endsTerminal_trim. by eapply Forall_forall in Hp. }
  simpl map. rewrite filter_cons, filter_nil.
  destruct (decide _).
  - intros [<- _]%app_inj_tail. done.
  - rewrite app_nil_r. intros H. rewrite H in Hinit.
    by apply Forall_app in Hinit as [? _].
Qed.

Lemma splitIntoSentences_terminal_witness :
  splitIntoSentences doc_mixed =
    [str "Le chat noir mange une souris grise dans le jardin."]
    ++ [str "Le chien dort toute la journee sur le vieux canape? oui, et le chat joue avec le chat du voisin chaque matin"]
  ∧ Forall (λ s, endsTerminal s = true)
           [str "Le chat noir mange une souris grise dans le jardin."].
Proof.
  assert (splitIntoSentences doc_mixed =
          [str "Le chat noir mange une souris grise dans le jardin."]
          ++ [str "Le chien dort toute la journee sur le vieux canape? oui, et le chat joue avec le chat du voisin chaque matin"])
    as H by (vm_compute; reflexivity).
  split; [exact H|].
  exact (splitIntoSentences_terminal doc_mixed _ _ H).
Defined.

(** X7: the split drops white space only: the pieces put together hold
    the code units of the text that are not white space, in order. *)
Theorem split_keeps_text (text : jsstring) :
  filter (λ c, isWhiteSpace c = false)
         (concat (jsSplit sentenceBoundary text)) =
  filter (λ c, isWhiteSpace c = false) text.
Proof.
  destruct text as [|c r]; [done|].
  unfold jsSplit. by rewrite splitLoop_sentence_keeps by constructor.
Qed.

(** ** The tokenizer *)

Lemma splitLoop_words (after : jsstring) :
  ∀ skip before cur,
    Forall (λ c, isWhiteSpace c = false) cur →
    Forall (λ piece, Forall (λ c, isWhiteSpace c = false) piece)
           (splitLoop whiteSpaceRun skip before cur after).
Proof.
  induction after as [|c r IH]; intros skip before cur Hcur; cbn [splitLoop].
  - constructor; [|constructor].
    apply Forall_forall. intros x Hx.
    apply list_elem_of_In, in_rev, list_elem_of_In in Hx.
    by eapply Forall_forall in Hcur.
  - destruct skip as [|k]; [|by apply IH].
    unfold whiteSpaceRun. simpl takeWhile.
    destruct (isWhiteSpace c) eqn:Hc; simpl.
    + constructor; [|by apply IH].
      apply Forall_forall. intros x Hx.
      apply list_elem_of_In, in_rev, list_elem_of_In in Hx.
      by eapply Forall_forall in Hcur.
    + apply IH. by constructor.
Qed.

Lemma jsSplit_words (s : jsstring) :
  Forall (λ piece, Forall (λ c, isWhiteSpace c = false) piece)
         (jsSplit whiteSpaceRun s).
Proof.
  destruct s as [|c r]; [repeat constructor|].
  by apply (splitLoop_words (c :: r) 0 [] []).
Qed.

Lemma isTokenChar_spec (c : N) :
  isWordChar c = true → isWhiteSpace c = false → isTokenChar c = true.
Proof.
  unfold isWordChar, isTokenChar. intros H Hws. rewrite Hws in H.
  by rewrite orb_false_r in H.
Qed.

(** X8: whatever the Unicode tables, a token is never empty, never a stop
    word, and made of the letters [a-z], the code units U+00E0 to U+00FF and
    the hyphen only. *)
Theorem tokenize_tokens (U : Unicode) (sentence token : jsstring) :
  token ∈ tokenize U sentence →
  token ≠ [] ∧ (token ∉ STOPWORDS)
  ∧ Forall (λ c, isTokenChar c = true) token.
Proof.
  unfold tokenize. intros [[Hne Hstop] Hin]%list_elem_of_filter.
  split; [done|]. split; [done|].
  set (blanked := blank (λ c, negb (isWordChar c))
                    (removeCodePoints (isDiacritic U)
                       (normalizeNFD U (toLowerCase U sentence)))) in *.
  assert (Forall (λ c, isWhiteSpace c = false) token) as Hws.
  { pose proof (jsSplit_words blanked) as H. by eapply Forall_forall in H. }
  assert (substringOf token blanked) as Hsub.
  { pose proof (jsSplit_substringOf whiteSpaceRun blanked) as H.
    by eapply Forall_forall in H. }
  apply Forall_forall. intros c Hc.
  apply isTokenChar_spec; [|by eapply Forall_forall in Hws].
  apply (substringOf_elem _ _ _ Hsub) in Hc.
  unfold blanked, blank in Hc. apply list_elem_of_fmap in Hc as (d & -> & _).
  destruct (isWordChar d) eqn:E; simpl; done.
Qed.

Lemma tokenize_tokens_witness :
  str "chat" ∈ tokenize basicLatin (str "Le CHAT, mange: le chat!")
  ∧ Forall (λ c, isTokenChar c = true) (str "chat").
Proof.
  assert (str "chat" ∈ tokenize basicLatin (str "Le CHAT, mange: le chat!"))
    as H by (vm_compute; left).
  split; [exact H|].
  exact (proj2 (proj2 (tokenize_tokens basicLatin _ _ H))).
Defined.

(** ** The scorer, further *)

Lemma allTokens_app (U : Unicode) (l1 l2 : list jsstring) :
  allTokens U (l1 ++ l2) = allTokens U l1 ++ allTokens U l2.
Proof. unfold allTokens. by rewrite map_app, concat_app. Qed.

Lemma allTokens_Permutation (U : Unicode) (l1 l2 : list jsstring) :
  l1 ≡ₚ l2 → allTokens U l1 ≡ₚ allTokens U l2.
Proof.
  unfold allTokens. induction 1 as [|x l l' _ IH|x y l|l l' l'' _ IH1 _ IH2];
    simpl.
  - done.
  - by rewrite IH.
  - rewrite !app_assoc. f_equiv. apply Permutation_app_comm.
  - by rewrite IH1.
Qed.

Lemma occurrences_app (t : jsstring) (l1 l2 : list jsstring) :
  occurrences t (l1 ++ l2) = occurrences t l1 + occurrences t l2.
Proof. unfold occurrences. by rewrite filter_app, length_app. Qed.

(** X9: the frequency table does not depend on the order of the
    sentences. *)
Theorem buildFrequencyMap_Permutation (U : Unicode)
    (sentences sentences' : list jsstring) :
  sentences ≡ₚ sentences' →
  buildFrequencyMap U sentences = buildFrequencyMap U sentences'.
Proof.
  intros Hp. apply map_eq. intros t. rewrite !buildFrequencyMap_lookup.
  pose proof (allTokens_Permutation U _ _ Hp) as Ht.
  assert (occurrences t (allTokens U sentences) =
          occurrences t (allTokens U sentences')) as ->.
  { unfold occurrences. by rewrite Ht. }
  destruct (decide (t ∈ allTokens U sentences)) as [Hin|Hnin];
    rewrite Ht in *; [by rewrite decide_True | by rewrite decide_False].
Qed.

Lemma buildFrequencyMap_Permutation_witness :
  buildFrequencyMap basicLatin (rev (segment doc_three))
  = buildFrequencyMap basicLatin (segment doc_three).
Proof.
  apply buildFrequencyMap_Permutation. symmetry. apply Permutation_rev.
Defined.

(** X10: frequencies add up: the frequency of a token in two lists of
    sentences put together is the sum of its frequencies in each, a token
    absent from a table counting 0. *)
Theorem buildFrequencyMap_app (U : Unicode) (l1 l2 : list jsstring)
    (t : jsstring) :
  default 0 (buildFrequencyMap U (l1 ++ l2) !! t) =
  default 0 (buildFrequencyMap U l1 !! t)
  + default 0 (buildFrequencyMap U l2 !! t).
Proof.
  rewrite !buildFrequencyMap_count.
  rewrite allTokens_app.
  apply occurrences_app.
Qed.

Lemma quotient_ge_1 (total count : nat) :
  0 < count → count ≤ total → (1 <= quotient total count)%Q.
Proof.
  intros Hc Ht. unfold quotient. apply Qle_shift_div_l.
  - change 0%Q with (inject_Z 0). rewrite <- Zlt_Qlt. lia.
  - rewrite Qmult_1_l. rewrite <- Zle_Qle. lia.
Qed.

(** X11: with the frequency table of the same sentences, the score map has
    an entry for exactly the sentences of the list that have a token, and
    every score is at least 1. *)
Theorem scoreSentences_entries (U : Unicode) (sentences : list jsstring)
    (s : jsstring) :
  let scores :=
    scoreSentences U sentences (buildFrequencyMap U sentences) in
  (is_Some (scores !! s) ↔ s ∈ sentences ∧ tokenize U s ≠ [])
  ∧ (∀ q, scores !! s = Some q → (1 <= q)%Q).
Proof.
  intros scores. unfold scores. rewrite scoreSentences_lookup.
  destruct (decide (s ∈ sentences ∧ tokenize U s ≠ [])) as [[Hs Hne]|Hn].
  - split; [split; [done | eauto]|].
    intros q [= <-]. unfold meanFrequency. apply quotient_ge_1.
    + destruct (tokenize U s); [done | simpl; lia].
    + apply sum_list_at_least, Forall_forall. intros t Ht.
      rewrite buildFrequencyMap_count.
      apply occurrences_pos. by eapply elem_of_allTokens.
  - split; [|done]. split; [by intros [? ?] | done].
Qed.

Lemma scoreSentences_entries_witness :
  ∃ q, scoreSentences basicLatin (segment doc_three)
         (buildFrequencyMap basicLatin (segment doc_three))
       !! str "Le chien dort toute la journee sur le vieux canape." = Some q
       ∧ (1 <= q)%Q.
Proof.
  eexists. refine (let H := _ in conj H
    (proj2 (scoreSentences_entries basicLatin (segment doc_three) _) _ H)).
  vm_compute. reflexivity.
Defined.

(** X12: for a given frequency table the score map depends on which
    sentences the list holds, not on their order or their repetition. *)
Theorem scoreSentences_same_elements (U : Unicode)
    (sentences sentences' : list jsstring) (freq : gmap jsstring nat) :
  (∀ s, s ∈ sentences ↔ s ∈ sentences') →
  scoreSentences U sentences freq = scoreSentences U sentences' freq.
Proof.
  intros H. apply map_eq. intros s. rewrite !scoreSentences_lookup.
  destruct (decide (s ∈ sentences ∧ tokenize U s ≠ [])) as [[Hs Hne]|Hn].
  - rewrite decide_True; [done|]. split; [by apply H | done].
  - rewrite decide_False; [done|]. intros [Hs Hne]. apply Hn.
    split; [by apply H | done].
Qed.

Lemma scoreSentences_same_elements_witness :
  scoreSentences basicLatin [footer; doc_colon; footer] ∅
  = scoreSentences basicLatin [doc_colon; footer] ∅.
Proof.
  apply scoreSentences_same_elements. intros s.
  rewrite !elem_of_cons. tauto.
Defined.

(** ** The selector, further *)

Lemma slice0_take {A} (limit : Z) (l : list A) :
  ∃ n, slice0 limit l = take n l
       ∧ ((0 ≤ limit)%Z → n = Z.to_nat limit).
Proof.
  unfold slice0. destruct (Z.ltb_spec limit 0).
  - eexists. split; [done | lia].
  - eexists. split; done.
Qed.

Lemma slice0_length_same {A B} (limit : Z) (l : list A) (k : list B) :
  length l = length k → length (slice0 limit l) = length (slice0 limit k).
Proof.
  intros H. unfold slice0. rewrite H.
  destruct (limit <? 0)%Z; by rewrite !length_take, H.
Qed.

Lemma ranked_take_drop (scores : gmap jsstring Q) (l : list jsstring)
    (n : nat) (a b : jsstring) :
  StronglySorted (ranksBefore scores) l →
  a ∈ take n l → b ∈ drop n l → ranksBefore scores a b.
Proof.
  intros Hl. revert n. induction Hl as [|y r Hr IH Hy]; intros n Ha Hb.
  - rewrite take_nil in Ha. by apply elem_of_nil in Ha.
  - destruct n as [|n]; simpl in *; [by apply elem_of_nil in Ha|].
    apply elem_of_cons in Ha as [->|Ha]; [|by eapply IH].
    eapply Forall_forall in Hy; [exact Hy|].
    eapply elem_of_sublist; [exact Hb | apply sublist_drop].
Qed.

(** X13: a selected sentence never scores less than a sentence of the
    list that is left out, sentences without an entry counting 0. *)
Theorem pickTopSentences_dominates (sentences : list jsstring)
    (scores : gmap jsstring Q) (limit : Z) (s x : jsstring) :
  s ∈ pickTopSentences sentences scores limit →
  x ∈ sentences →
  x ∉ pickTopSentences sentences scores limit →
  (scoreOf scores x <= scoreOf scores s)%Q.
Proof.
  rewrite !elem_of_pickTopSentences.
  set (ranking := arraySort (byScoreDescending scores) sentences).
  destruct (slice0_take limit ranking) as (n & -> & _).
  intros Hs Hx Hnx.
  apply (ranked_take_drop scores ranking n s x);
    [apply arraySort_ranked | done |].
  apply (elem_of_arraySort (byScoreDescending scores)) in Hx.
  fold ranking in Hx. rewrite <- (take_drop n ranking) in Hx.
  by apply elem_of_app in Hx as [?|?].
Qed.

Lemma pickTopSentences_dominates_witness :
  let sentences := segment doc_three ++ [footer] in
  let scores := scoreSentences basicLatin sentences
                  (buildFrequencyMap basicLatin sentences) in
  (scoreOf scores (str "Le chien dort toute la journee sur le vieux canape.")
   <= scoreOf scores (str "Le chat joue avec le chat du voisin chaque matin."))%Q.
Proof.
  intros sentences scores.
  apply (pickTopSentences_dominates sentences scores 2).
  - apply (proj2 (elem_of_pickTopSentences sentences scores 2 _)).
    vm_compute. left.
  - vm_compute. right. left.
  - intros H.
    apply (proj1 (elem_of_pickTopSentences sentences scores 2 _)) in H.
    vm_compute in H.
    repeat (apply elem_of_cons in H as [H|H]; [discriminate H|]).
    by apply elem_of_nil in H.
Defined.

(** With a positive limit the first sentence of the ranking is selected. *)
Lemma pickTopSentences_head (sentences : list jsstring)
    (scores : gmap jsstring Q) (limit : Z) :
  sentences ≠ [] → (0 < limit)%Z →
  ∃ s r, arraySort (byScoreDescending scores) sentences = s :: r
         ∧ s ∈ pickTopSentences sentences scores limit.
Proof.
  intros Hne Hpos.
  destruct (arraySort (byScoreDescending scores) sentences) as [|s r] eqn:E.
  - apply (f_equal length) in E.
    rewrite arraySort_length in E. by destruct sentences.
  - exists s, r. split; [done|].
    apply (proj2 (elem_of_pickTopSentences sentences scores limit s)).
    rewrite E. unfold slice0.
    destruct (Z.ltb_spec limit 0); [lia|].
    destruct (Z.to_nat limit) eqn:En; [lia|]. simpl. by left.
Qed.

(** X14: with a limit that is not negative the selection is empty exactly
    when there is no sentence or the limit is 0; otherwise it holds a sentence
    that no sentence of the list outscores. *)
Theorem pickTopSentences_best (sentences : list jsstring)
    (scores : gmap jsstring Q) (limit : Z) :
  (0 ≤ limit)%Z →
  (pickTopSentences sentences scores limit = [] ↔
   sentences = [] ∨ limit = 0%Z)
  ∧ (sentences ≠ [] → (0 < limit)%Z →
     ∃ s, s ∈ pickTopSentences sentences scores limit
          ∧ ∀ x, x ∈ sentences → (scoreOf scores x <= scoreOf scores s)%Q).
Proof.
  intros Hl. split; [split|].
  - intros Hnil. destruct sentences as [|y l]; [by left|]. right.
    destruct (decide (limit = 0%Z)) as [|Hz]; [done|].
    destruct (pickTopSentences_head (y :: l) scores limit)
      as (s & r & _ & Hs); [done | lia|].
    rewrite Hnil in Hs. by apply elem_of_nil in Hs.
  - intros [->| ->]; [done|].
    assert (∀ x, x ∉ pickTopSentences sentences scores 0) as Hno.
    { intros x Hx%elem_of_pickTopSentences. unfold slice0 in Hx.
      simpl in Hx. by apply elem_of_nil in Hx. }
    destruct (pickTopSentences sentences scores 0) as [|y l]; [done|].
    destruct (Hno y). by left.
  - intros Hne Hpos.
    destruct (pickTopSentences_head sentences scores limit Hne Hpos)
      as (s & r & E & Hs).
    exists s. split; [done|]. intros x Hx.
    apply (elem_of_arraySort (byScoreDescending scores)) in Hx.
    pose proof (arraySort_ranked scores sentences) as Hsorted.
    rewrite E in Hx, Hsorted.
    apply elem_of_cons in Hx as [->|Hx]; [unfold ranksBefore; lra|].
    inversion Hsorted as [|? ? _ Hall]; subst.
    by eapply Forall_forall in Hall.
Qed.

Lemma pickTopSentences_best_witness :
  pickTopSentences (segment doc_three) ∅ 1 ≠ [].
Proof.
  intros H.
  apply (proj1 (pickTopSentences_best (segment doc_three) ∅ 1 ltac:(lia))) in H.
  destruct H as [H|H]; [vm_compute in H; discriminate H | discriminate H].
Defined.

Lemma pickTopSentences_NoDup_length (sentences : list jsstring)
    (scores : gmap jsstring Q) (limit : Z) :
  (0 ≤ limit)%Z → NoDup sentences →
  length (pickTopSentences sentences scores limit) =
  Z.to_nat limit `min` length sentences.
Proof.
  intros Hl Hnd.
  set (ranking := arraySort (byScoreDescending scores) sentences).
  assert (length (slice0 limit ranking)
          = Z.to_nat limit `min` length sentences) as <-.
  { rewrite slice0_length by done.
    unfold ranking. by rewrite arraySort_length. }
  apply Permutation_length, NoDup_Permutation.
  - by apply NoDup_filter.
  - destruct (slice0_take limit ranking) as (n & -> & _).
    apply (sublist_NoDup (take n ranking) ranking); [|apply sublist_take].
    unfold ranking. by rewrite arraySort_perm.
  - intros x. apply elem_of_pickTopSentences.
Qed.

(** X15: the selection holds at most [limit] different sentences, and
    exactly as many sentences as the smaller of [limit] and the number of
    sentences when no sentence occurs twice. *)
Theorem pickTopSentences_count (sentences : list jsstring)
    (scores : gmap jsstring Q) (limit : Z) :
  (0 ≤ limit)%Z →
  length (remove_dups (pickTopSentences sentences scores limit))
    ≤ Z.to_nat limit
  ∧ (NoDup sentences →
     length (pickTopSentences sentences scores limit) =
     Z.to_nat limit `min` length sentences).
Proof.
  intros Hl. split; [|by apply pickTopSentences_NoDup_length].
  set (top := slice0 limit (arraySort (byScoreDescending scores) sentences)).
  assert (length top ≤ Z.to_nat limit) as Htop.
  { unfold top. rewrite slice0_length by done. lia. }
  transitivity (length top); [|done].
  apply submseteq_length, NoDup_submseteq; [apply NoDup_remove_dups|].
  intros x Hx. apply (proj1 (elem_of_remove_dups _ _)) in Hx.
  by apply (proj1 (elem_of_pickTopSentences sentences scores limit x)).
Qed.

Lemma pickTopSentences_count_witness :
  length (pickTopSentences (segment doc_three) ∅ 2) = 2.
Proof.
  rewrite (proj2 (pickTopSentences_count (segment doc_three) ∅ 2 ltac:(lia))).
  - reflexivity.
  - vm_compute. repeat constructor; intros H;
      repeat (apply elem_of_cons in H as [H|H]; [discriminate H|]);
      by apply elem_of_nil in H.
Defined.

Lemma insertSorted_tie {A} (cmp : A → A → Q) (x : A) (l : list A) :
  (∀ y, y ∈ l → (cmp x y == 0)%Q) → insertSorted cmp x l = x :: l.
Proof.
  destruct l as [|y r]; [done|]. intros H. simpl.
  assert (cmp x y == 0)%Q as E by (apply H; by left).
  apply Qeq_alt in E. by rewrite E.
Qed.

Lemma arraySort_ties {A} (cmp : A → A → Q) (l : list A) :
  (∀ x y, x ∈ l → y ∈ l → (cmp x y == 0)%Q) → arraySort cmp l = l.
Proof.
  induction l as [|x l IH]; intros H; simpl; [done|].
  fold (arraySort cmp l). rewrite IH.
  - apply insertSorted_tie. intros y Hy. apply H; [by left | by right].
  - intros a b Ha Hb. apply H; by right.
Qed.

Lemma filter_prefix_NoDup (l1 l2 : list jsstring) :
  NoDup (l1 ++ l2) → filter (λ s, s ∈ l1) (l1 ++ l2) = l1.
Proof.
  intros (_ & Hdis & _)%NoDup_app. rewrite filter_app.
  rewrite (filter_all _ l1) by by apply Forall_forall.
  assert (filter (λ s, s ∈ l1) l2 = []) as ->; [|by rewrite app_nil_r].
  induction l2 as [|y l2 IH]; [done|].
  rewrite filter_cons_False.
  - apply IH. intros x Hx Hx2. apply (Hdis x Hx). by right.
  - intros Hy. apply (Hdis y Hy). by left.
Qed.

(** X16: ties go to the earlier sentences: when no sentence occurs twice
    and all sentences score the same, as when none of them has a token, the
    selection is the first [limit] sentences. *)
Theorem pickTopSentences_ties (sentences : list jsstring)
    (scores : gmap jsstring Q) (limit : Z) :
  (0 ≤ limit)%Z → NoDup sentences →
  (∀ x y, x ∈ sentences → y ∈ sentences →
          (scoreOf scores x == scoreOf scores y)%Q) →
  pickTopSentences sentences scores limit = take (Z.to_nat limit) sentences.
Proof.
  intros Hl Hnd Htie. unfold pickTopSentences.
  rewrite arraySort_ties.
  - unfold slice0. destruct (Z.ltb_spec limit 0); [lia|].
    trans (filter (λ s, s ∈ take (Z.to_nat limit) sentences) sentences).
    { apply list_filter_iff. intros x. apply elem_of_list_to_set. }
    pose proof (filter_prefix_NoDup (take (Z.to_nat limit) sentences)
                  (drop (Z.to_nat limit) sentences)) as Hpre.
    rewrite take_drop in Hpre. by apply Hpre.
  - intros x y Hx Hy. unfold byScoreDescending.
    rewrite (Htie x y Hx Hy). lra.
Qed.

Lemma pickTopSentences_ties_witness :
  pickTopSentences (segment doc_three) ∅ 2 = take 2 (segment doc_three).
Proof.
  apply (pickTopSentences_ties (segment doc_three) ∅ 2); [lia| |done].
  vm_compute. repeat constructor; intros H;
    repeat (apply elem_of_cons in H as [H|H]; [discriminate H|]);
    by apply elem_of_nil in H.
Defined.

(** ** What the string operations keep *)

Section Keeps.
Context (P : N → Prop) `{!∀ c, Decision (P c)}.
Hypothesis P_not_whiteSpace : ∀ c, P c → isWhiteSpace c = false.

Lemma filter_all_whiteSpace (l : jsstring) :
  Forall (λ c, isWhiteSpace c = true) l → filter P l = [].
Proof.
  induction 1 as [|c l Hc _ IH]; [done|].
  rewrite filter_cons_False; [done|].
  intros Hp%P_not_whiteSpace. by rewrite Hp in Hc.
Qed.

Lemma filter_trim (s : jsstring) : filter P (trim s) = filter P s.
Proof.
  destruct (trim_decompose s) as (l1 & l2 & Hs & H1 & H2).
  rewrite Hs at 2. rewrite !filter_app.
  by rewrite (filter_all_whiteSpace l1), (filter_all_whiteSpace l2), app_nil_r.
Qed.

Lemma filter_collapseFrom (s : jsstring) :
  ∀ b, filter P (collapseFrom b s) = filter P s.
Proof.
  induction s as [|c s IH]; intros b; simpl; [done|].
  destruct (isWhiteSpace c) eqn:Hc.
  - rewrite (filter_cons_False _ c)
      by (intros Hp%P_not_whiteSpace; by rewrite Hp in Hc).
    destruct b; [apply IH|].
    rewrite filter_cons_False; [apply IH|]. by intros Hp%P_not_whiteSpace.
  - by rewrite !filter_cons, IH.
Qed.

Lemma filter_joinSpace (l : list jsstring) :
  filter P (joinSpace l) = filter P (concat l).
Proof.
  induction l as [|s l IH]; [done|].
  destruct l as [|s' l'].
  - simpl. by rewrite app_nil_r.
  - change (joinSpace (s :: s' :: l'))
      with (s ++ SPACE :: joinSpace (s' :: l')).
    change (concat (s :: s' :: l')) with (s ++ concat (s' :: l')).
    rewrite !filter_app, filter_cons_False, IH; [done|].
    by intros Hp%P_not_whiteSpace.
Qed.
End Keeps.

Lemma filter_blank_isControl (s : jsstring) :
  filter isInk (blank isControl s) = filter isInk s.
Proof.
  unfold blank. induction s as [|c s IH]; [done|]. simpl.
  destruct (isControl c) eqn:Hc.
  - rewrite !filter_cons_False, IH; [done| |]; unfold isInk.
    + intros [_ ?]. congruence.
    + intros [? _]. done.
  - by rewrite !filter_cons, IH.
Qed.

(** X17: the sanitizer touches white space and control characters only:
    the other code units of the text are those of the result, in order. *)
Theorem sanitizeText_keeps (text : jsstring) :
  filter isInk (sanitizeText text) = filter isInk text.
Proof.
  unfold sanitizeText, collapseWhiteSpace.
  rewrite (filter_trim isInk) by (by intros c [? _]).
  rewrite filter_blank_isControl.
  apply (filter_collapseFrom isInk). by intros c [? _].
Qed.

(** ** The title *)

Lemma dropWhile_app_all {A} (p : A → bool) (l1 l : list A) :
  Forall (λ x, p x = true) l1 → dropWhile p (l1 ++ l) = dropWhile p l.
Proof. induction 1 as [|x l1 Hx _ IH]; simpl; [done|]. by rewrite Hx. Qed.

Lemma dropWhile_fixed {A} (p : A → bool) (l : list A) :
  (∀ x, head l = Some x → p x = false) → dropWhile p l = l.
Proof. destruct l as [|x l]; simpl; [done|]. intros H. by rewrite (H x). Qed.

Lemma takeWhile_app_stop {A} (p : A → bool) (l tail : list A) (d : A) :
  Forall (λ x, p x = true) l → p d = false →
  takeWhile p (l ++ d :: tail) = l.
Proof.
  intros Hl Hd. induction Hl as [|x l Hx _ IH]; simpl; [by rewrite Hd|].
  by rewrite Hx, IH.
Qed.

(** White space around a text that neither starts nor ends with white space
    is what [trim] takes away. *)
Lemma trim_strip (l1 t l2 : jsstring) :
  Forall (λ c, isWhiteSpace c = true) l1 →
  Forall (λ c, isWhiteSpace c = true) l2 →
  (∀ c, head t = Some c → isWhiteSpace c = false) →
  (∀ c, last t = Some c → isWhiteSpace c = false) →
  trim (l1 ++ t ++ l2) = t.
Proof.
  intros H1 H2 Hhead Hlast. unfold trim.
  rewrite (dropWhile_app_all _ _ _ H1).
  assert (Forall (λ c, isWhiteSpace c = true) (rev l2)) as H2'.
  { apply Forall_forall. intros c Hc.
    apply list_elem_of_In, in_rev, list_elem_of_In in Hc.
    by eapply Forall_forall in H2. }
  destruct t as [|c t'].
  - simpl. rewrite <- (app_nil_r l2) at 1.
    by rewrite (dropWhile_app_all _ _ _ H2).
  - rewrite (dropWhile_fixed _ ((c :: t') ++ l2)) by (intros x [= <-]; by apply Hhead).
    rewrite rev_app_distr, (dropWhile_app_all _ _ _ H2').
    rewrite dropWhile_fixed; [apply rev_involutive|].
    intros x Hx. apply Hlast. by rewrite last_head_rev.
Qed.

(** C8: without key sentences the title is the fixed fallback; otherwise it
    is the trimmed text of the first key sentence before its first [:], [.],
    [!] or [?] (the whole trimmed sentence when it has none), and the fallback
    only when that text is empty.  A sentence with a colon yields the text
    before the colon.  Trimmed is said without [trim]: when the text before
    the first delimiter, or the whole sentence if it has none, is [t] with
    white space before and behind it, [t] neither starting nor ending with
    white space, the title is [t], or the fallback when [t] is empty; and no
    title starts or ends with white space. *)
Theorem buildTitle_prefix :
  buildTitle [] = DEFAULT_TITLE
  ∧ (∀ first rest,
       let snippet :=
         trim (takeWhile (λ c, negb (isTitleDelimiter c)) first) in
       buildTitle (first :: rest) =
       if decide (snippet = []) then DEFAULT_TITLE else snippet)
  ∧ (∀ first rest,
       Forall (λ c, isTitleDelimiter c = false) first →
       trim first ≠ [] →
       buildTitle (first :: rest) = trim first)
  ∧ (∀ lead tail rest,
       Forall (λ c, isTitleDelimiter c = false) lead →
       trim lead ≠ [] →
       buildTitle ((lead ++ 58%N :: tail) :: rest) = trim lead)
  ∧ (∀ l1 t l2 d tail rest,
       Forall (λ c, isWhiteSpace c = true) l1 →
       Forall (λ c, isWhiteSpace c = true) l2 →
       (∀ c, head t = Some c → isWhiteSpace c = false) →
       (∀ c, last t = Some c → isWhiteSpace c = false) →
       Forall (λ c, isTitleDelimiter c = false) t →
       isTitleDelimiter d = true →
       buildTitle ((l1 ++ t ++ l2 ++ d :: tail) :: rest) =
       if decide (t = []) then DEFAULT_TITLE else t)
  ∧ (∀ l1 t l2 rest,
       Forall (λ c, isWhiteSpace c = true) l1 →
       Forall (λ c, isWhiteSpace c = true) l2 →
       (∀ c, head t = Some c → isWhiteSpace c = false) →
       (∀ c, last t = Some c → isWhiteSpace c = false) →
       Forall (λ c, isTitleDelimiter c = false) t →
       buildTitle ((l1 ++ t ++ l2) :: rest) =
       if decide (t = []) then DEFAULT_TITLE else t)
  ∧ (∀ sentences,
       buildTitle sentences ≠ []
       ∧ (∀ c, head (buildTitle sentences) = Some c → isWhiteSpace c = false)
       ∧ (∀ c, last (buildTitle sentences) = Some c → isWhiteSpace c = false)).
Proof.
  assert (∀ first rest,
    buildTitle (first :: rest) =
    if decide (trim (takeWhile (λ c, negb (isTitleDelimiter c)) first) = [])
    then DEFAULT_TITLE
    else trim (takeWhile (λ c, negb (isTitleDelimiter c)) first)) as Hgen.
  { intros first rest. unfold buildTitle.
    rewrite jsSplit_titleDelimiter_hd.
    destruct (trim _) as [|c l]; [done|]. by rewrite decide_False. }
  assert (∀ lead : jsstring,
    Forall (λ c, isTitleDelimiter c = false) lead →
    Forall (λ c, negb (isTitleDelimiter c) = true) lead) as Hneg.
  { intros lead H. eapply Forall_impl; [exact H|]. by intros c ->. }
  assert (∀ l : jsstring,
    Forall (λ c, isWhiteSpace c = true) l →
    Forall (λ c, negb (isTitleDelimiter c) = true) l) as Hws.
  { intros l H. eapply Forall_impl; [exact H|]. intros c Hc.
    apply negb_true_iff, not_true_is_false. unfold isTitleDelimiter.
    rewrite orb_true_iff, N.eqb_eq, isTerminal_spec.
    apply isWhiteSpace_spec in Hc. lia. }
  assert (∀ l1 t l2 : jsstring,
    Forall (λ c, isWhiteSpace c = true) l1 →
    Forall (λ c, isWhiteSpace c = true) l2 →
    Forall (λ c, isTitleDelimiter c = false) t →
    Forall (λ c, negb (isTitleDelimiter c) = true) (l1 ++ t ++ l2)) as Hall.
  { intros l1 t l2 H1 H2 Ht. apply Forall_app. split; [by apply Hws|].
    apply Forall_app. split; [by apply Hneg | by apply Hws]. }
  split; [done|]. split; [exact Hgen|].
  split; [|split; [|split; [|split]]].
  - intros first rest Hf Hne. rewrite Hgen.
    rewrite takeWhile_all by by apply Hneg. by rewrite decide_False.
  - intros lead tail rest Hl Hne. rewrite Hgen.
    rewrite takeWhile_app_stop; [by rewrite decide_False | by apply Hneg|].
    reflexivity.
  - intros l1 t l2 d tail rest H1 H2 Hhead Hlast Ht Hd. rewrite Hgen.
    replace (l1 ++ t ++ l2 ++ d :: tail) with ((l1 ++ t ++ l2) ++ d :: tail)
      by (by rewrite <- !app_assoc).
    rewrite takeWhile_app_stop; [|by apply Hall | by rewrite Hd].
    by rewrite trim_strip.
  - intros l1 t l2 rest H1 H2 Hhead Hlast Ht. rewrite Hgen.
    rewrite takeWhile_all by by apply Hall.
    by rewrite trim_strip.
  - intros [|first rest].
    { split; [done|]. split; intros c [= <-]; reflexivity. }
    rewrite Hgen.
    pose proof (trim_trimmed (takeWhile (λ c, negb (isTitleDelimiter c)) first))
      as Htrim.
    destruct (trim (takeWhile (λ c, negb (isTitleDelimiter c)) first))
      as [|c l] eqn:E.
    + split; [done|]. split; intros c [= <-]; reflexivity.
    + rewrite decide_False by done. split; [done|].
      split; intros x; [by apply trimmed_head | by apply trimmed_last].
Qed.

Lemma buildTitle_prefix_witness :
  buildTitle [str "  Chapitre 1  : les origines du projet et ses premiers pas."]
  = str "Chapitre 1"
  ∧ buildTitle [doc_colon] = str "Chapitre 1".
Proof.
  split.
  - change (str "  Chapitre 1  : les origines du projet et ses premiers pas.")
      with (str "  " ++ str "Chapitre 1" ++ str "  " ++ 58%N
              :: str " les origines du projet et ses premiers pas.").
    rewrite (proj1 (proj2 (proj2 (proj2 (proj2 buildTitle_prefix))))).
    + reflexivity.
    + vm_compute. repeat constructor.
    + vm_compute. repeat constructor.
    + intros c [= <-]. reflexivity.
    + intros c [= <-]. reflexivity.
    + vm_compute. repeat constructor.
    + reflexivity.
  - change doc_colon with
      (str "Chapitre 1" ++ 58%N
         :: str " les origines du projet et ses premiers pas.").
    rewrite (proj1 (proj2 (proj2 (proj2 buildTitle_prefix)))).
    + reflexivity.
    + vm_compute. repeat constructor.
    + vm_compute. discriminate.
Defined.

(** ** The composer, further *)

Lemma takeWhile_substringOf (p : N → bool) (s : jsstring) :
  substringOf (takeWhile p s) s.
Proof. exists [], (dropWhile p s). simpl. by rewrite takeWhile_dropWhile. Qed.

(** X18: a title is never empty, holds none of [:], [.], [!], [?], and
    neither starts nor ends with white space; it is the fixed title or a run
    of consecutive code units of the first sentence. *)
Theorem buildTitle_wellformed (sentences : list jsstring) :
  buildTitle sentences ≠ []
  ∧ Forall (λ c, isTitleDelimiter c = false) (buildTitle sentences)
  ∧ (∀ c, head (buildTitle sentences) = Some c → isWhiteSpace c = false)
  ∧ (∀ c, last (buildTitle sentences) = Some c → isWhiteSpace c = false)
  ∧ (buildTitle sentences = DEFAULT_TITLE
     ∨ ∃ first rest, sentences = first :: rest
                     ∧ substringOf (buildTitle sentences) first).
Proof.
  assert (DEFAULT_TITLE ≠ []
          ∧ Forall (λ c, isTitleDelimiter c = false) DEFAULT_TITLE
          ∧ (∀ c, head DEFAULT_TITLE = Some c → isWhiteSpace c = false)
          ∧ (∀ c, last DEFAULT_TITLE = Some c → isWhiteSpace c = false))
    as Hdefault.
  { split; [done|]. split; [vm_compute; repeat constructor|].
    split; intros c [= <-]; reflexivity. }
  destruct sentences as [|first rest].
  { destruct Hdefault as (? & ? & ? & ?). repeat split; try done. by left. }
  unfold buildTitle. rewrite jsSplit_titleDelimiter_hd.
  remember (trim (takeWhile (λ c, negb (isTitleDelimiter c)) first))
    as snippet eqn:E.
  assert (substringOf snippet (takeWhile (λ c, negb (isTitleDelimiter c)) first))
    as Hsub by (rewrite E; apply trim_substringOf).
  assert (trimmed snippet) as Htrim by (rewrite E; apply trim_trimmed).
  destruct snippet as [|c l].
  { destruct Hdefault as (? & ? & ? & ?). repeat split; try done. by left. }
  change (0 <? length (c :: l)) with true. cbv iota.
  split; [done|]. split; [|split; [|split]].
  - apply Forall_forall. intros x Hx.
    apply (substringOf_elem _ _ _ Hsub) in Hx.
    pose proof (takeWhile_Forall (λ c, negb (isTitleDelimiter c)) first) as H.
    eapply Forall_forall in H; [|exact Hx]. by apply negb_true_iff in H.
  - intros x. by apply trimmed_head.
  - intros x. by apply trimmed_last.
  - right. exists first, rest. split; [done|].
    eapply substringOf_trans; [exact Hsub | apply takeWhile_substringOf].
Qed.

Lemma buildTitle_wellformed_witness :
  head (buildTitle [doc_colon]) = Some 67%N ∧ isWhiteSpace 67 = false.
Proof.
  assert (head (buildTitle [doc_colon]) = Some 67%N) as H
    by (vm_compute; reflexivity).
  split; [exact H|].
  exact (proj1 (proj2 (proj2 (buildTitle_wellformed [doc_colon]))) _ H).
Defined.

Lemma buildThesis_keeps (sentences : list jsstring) :
  filter (λ c, isWhiteSpace c = false) (buildThesis sentences) =
  filter (λ c, isWhiteSpace c = false) (concat (take 2 sentences)).
Proof.
  unfold buildThesis. change (slice0 2 sentences) with (take 2 sentences).
  rewrite (filter_trim _) by done. unfold collapseWhiteSpace.
  rewrite (filter_collapseFrom _) by done.
  by apply (filter_joinSpace _).
Qed.

(** X19: the thesis is made of the first two sentences only; of them it
    keeps every code unit that is not white space, in order; it has no two
    white-space code units in a row, no white space but spaces, and neither
    starts nor ends with white space. *)
Theorem buildThesis_wellformed (sentences : list jsstring) :
  buildThesis sentences = buildThesis (take 2 sentences)
  ∧ filter (λ c, isWhiteSpace c = false) (buildThesis sentences) =
    filter (λ c, isWhiteSpace c = false) (concat (take 2 sentences))
  ∧ hasWhiteSpacePair (buildThesis sentences) = false
  ∧ Forall (λ c, isWhiteSpace c = true → c = SPACE) (buildThesis sentences)
  ∧ (∀ c, head (buildThesis sentences) = Some c → isWhiteSpace c = false)
  ∧ (∀ c, last (buildThesis sentences) = Some c → isWhiteSpace c = false).
Proof.
  split; [|split; [apply buildThesis_keeps|]].
  { unfold buildThesis.
    change (slice0 2 sentences) with (take 2 sentences).
    change (slice0 2 (take 2 sentences)) with (take 2 (take 2 sentences)).
    by rewrite take_take. }
  unfold buildThesis. split; [|split; [|split]].
  - eapply hasWhiteSpacePair_substringOf; [apply trim_substringOf|].
    apply wsPairFrom_collapseFrom.
  - apply Forall_forall. intros c Hc Hws.
    apply (substringOf_elem _ _ _ (trim_substringOf _)) in Hc.
    apply collapseFrom_elem in Hc as [?|[_ Hn]]; [done|]. by rewrite Hws in Hn.
  - intros c. apply trimmed_head, trim_trimmed.
  - intros c. apply trimmed_last, trim_trimmed.
Qed.

Lemma buildThesis_wellformed_witness :
  head (buildThesis [footer; doc_colon; figures]) = Some 84%N
  ∧ isWhiteSpace 84 = false.
Proof.
  assert (head (buildThesis [footer; doc_colon; figures]) = Some 84%N) as H
    by (vm_compute; reflexivity).
  split; [exact H|].
  exact (proj1 (proj2 (proj2 (proj2 (proj2
    (buildThesis_wellformed [footer; doc_colon; figures]))))) _ H).
Defined.

(** ** The pipeline, further *)

Lemma segment_sentence (text s : jsstring) :
  s ∈ segment text → s ∈ splitIntoSentences (sanitizeText text).
Proof.
  intros H. eapply elem_of_sublist; [exact H | apply slice0_sublist].
Qed.

(** X20: a summary has at least one key point and at most 180 sentences
    behind it; every key point is a sentence of at least 40 code units that
    occurs in the sanitized text; the call to action is the lead-in followed
    by a sentence, never the fallback text; and the thesis is not empty. *)
Theorem summarise_summary (U : Unicode) (text : jsstring) (r : Summary) :
  summarise U text = Returns r →
  keyPoints r ≠ []
  ∧ length (segment text) ≤ 180
  ∧ Forall (λ s, MIN_SENTENCE_LENGTH ≤ length s
                 ∧ substringOf s (sanitizeText text)) (keyPoints r)
  ∧ (∃ s, s ∈ segment text ∧ callToAction r = CALL_TO_ACTION_LEAD ++ s)
  ∧ callToAction r ≠ DEFAULT_CALL_TO_ACTION
  ∧ thesis r ≠ [].
Proof.
  intros Hr.
  pose proof (keyPoints_members U text r Hr) as (_ & _ & Hmem).
  apply summarise_Returns in Hr as (Hne & Hkey & _ & Hthesis & Hcall).
  assert (List.last (segment text) [] ≠ []) as Hlast
    by (apply last_long; [done | apply segment_long]).
  rewrite buildCallToAction_last in Hcall by done.
  split; [|split; [|split; [|split; [|split]]]].
  - rewrite Hkey. unfold selectKeyPoints. intros Hnil.
    destruct (pickTopSentences_head (segment text)
                (scoreSentences U (segment text)
                   (buildFrequencyMap U (segment text)))
                MAX_KEY_POINTS Hne ltac:(done)) as (s & _ & _ & Hs).
    rewrite Hnil in Hs. by apply elem_of_nil in Hs.
  - rewrite segment_take, length_take. lia.
  - apply Forall_forall. intros s Hs%Hmem%segment_sentence. split.
    + pose proof (splitIntoSentences_long (sanitizeText text)) as Hlong.
      by eapply Forall_forall in Hlong.
    + by apply splitIntoSentences_substringOf.
  - exists (List.last (segment text) []). split; [|done].
    destruct (exists_last Hne) as (l & s & ->).
    rewrite last_last. apply elem_of_app. right. by left.
  - rewrite Hcall. by intros [=].
  - rewrite Hthesis. intros Hnil.
    pose proof (buildThesis_keeps (segment text)) as Hk.
    rewrite Hnil in Hk.
    destruct (segment text) as [|s l] eqn:E; [done|].
    assert (s ∈ splitIntoSentences (sanitizeText text)) as Hs.
    { apply segment_sentence. rewrite E. by left. }
    pose proof (splitIntoSentences_long (sanitizeText text)) as Hlen.
    eapply Forall_forall in Hlen; [|exact Hs].
    apply splitIntoSentences_trimmed in Hs.
    destruct s as [|c s'];
      [simpl in Hlen; unfold MIN_SENTENCE_LENGTH in Hlen; lia|].
    pose proof (trimmed_head _ c Hs eq_refl) as Hhd.
    assert (take 2 ((c :: s') :: l) = (c :: s') :: take 1 l) as Ht by done.
    rewrite Ht in Hk. simpl in Hk.
    rewrite filter_cons_True in Hk by done. done.
Qed.

Lemma summarise_summary_witness :
  ∃ r, summarise basicLatin doc_three = Returns r ∧ keyPoints r ≠ [].
Proof.
  assert (∃ r, summarise basicLatin doc_three = Returns r) as [r Hr].
  { eexists. vm_compute. reflexivity. }
  exists r. split; [exact Hr|].
  exact (proj1 (summarise_summary basicLatin doc_three r Hr)).
Defined.

(** ** The request handler *)

Lemma respondToError_message (e : thrown) :
  status (respondToError e) = 500%N
  ∧ ∃ m, body (respondToError e) = MessageBody m ∧ m ≠ [].
Proof.
  split; [done|]. unfold respondToError.
  destruct e as [[|c m]|]; eexists; (split; [reflexivity | done]).
Qed.

Lemma summarise_outcome (U : Unicode) (text : jsstring) :
  (splitIntoSentences (sanitizeText text) = []
   ∧ summarise U text = EmptyDocument)
  ∨ (splitIntoSentences (sanitizeText text) ≠ []
     ∧ ∃ r, summarise U text = Returns r).
Proof.
  pose proof (segment_nil_iff text) as Hnil. rewrite summarise_unfold.
  destruct (segment text) as [|s l].
  - left. split; [by apply Hnil | done].
  - right. split; [|eauto]. intros H. by apply Hnil in H.
Qed.

(** X21: the handler answers 200 exactly when the form holds a file of at
    most 10 MiB from which text is extracted that has at least 200 code units
    once trimmed and at least one sentence once sanitized and segmented; the
    body is then the summary of that text.  Every other answer carries a
    message that is not empty. *)
Theorem POST_ok_iff (U : Unicode) (extractText : list N → thrown + jsstring)
    (formData : thrown + formEntry) :
  let response := POST U extractText formData in
  (status response = 200%N ↔
   ∃ bytes rawText,
     formData = inr (BlobEntry bytes)
     ∧ (N.of_nat (length bytes) ≤ MAX_FILE_SIZE)%N
     ∧ extractText bytes = inr rawText
     ∧ 200 ≤ length (trim rawText)
     ∧ splitIntoSentences (sanitizeText rawText) ≠ [])
  ∧ (status response = 200%N →
     ∃ bytes rawText summary,
       formData = inr (BlobEntry bytes)
       ∧ extractText bytes = inr rawText
       ∧ summarise U rawText = Returns summary
       ∧ body response = SummaryBody summary)
  ∧ (status response ≠ 200%N →
     ∃ m, body response = MessageBody m ∧ m ≠ []).
Proof.
  intros response. unfold response, POST.
  destruct formData as [e|[|value|bytes]].
  - pose proof (respondToError_message e) as (Hs & m & Hb & Hm).
    rewrite Hs. split; [split; [done | by intros (? & ? & ? & _)]|].
    split; [done | eauto].
  - simpl. split; [split; [done | by intros (? & ? & ? & _)]|].
    split; [done | by eexists].
  - simpl. split; [split; [done | by intros (? & ? & ? & _)]|].
    split; [done | by eexists].
  - destruct (N.ltb_spec MAX_FILE_SIZE (N.of_nat (length bytes))) as [Hbig|Hfit].
    { simpl. split; [split; [done|]|split; [done | by eexists]].
      intros (? & ? & [= <-] & ? & _). lia. }
    destruct (extractText bytes) as [e|rawText] eqn:Hex.
    { pose proof (respondToError_message e) as (Hs & m & Hb & Hm).
      rewrite Hs. split; [split; [done|]|split; [done | eauto]].
      intros (? & ? & [= <-] & _ & ? & _). congruence. }
    destruct (match rawText with
              | [] => true
              | _ => length (trim rawText) <? 200
              end) eqn:Hlen.
    { simpl. split; [split; [done|]|split; [done | by eexists]].
      intros (? & ? & [= <-] & _ & Hex' & Hlong & _).
      rewrite Hex in Hex'. injection Hex' as <-.
      destruct rawText; [simpl in Hlong; lia|].
      apply Nat.ltb_lt in Hlen. lia. }
    assert (200 ≤ length (trim rawText)) as Hlong.
    { destruct rawText; [done|]. apply Nat.ltb_ge in Hlen. lia. }
    destruct (summarise_outcome U rawText)
      as [[Hnil ->]|[Hne [summary Hsum]]]; [|rewrite Hsum].
    + pose proof (respondToError_message (ErrorObject NO_CONTENT))
        as (Hs & m & Hb & Hm).
      unfold EmptyDocument. rewrite Hs.
      split; [split; [done|]|split; [done | eauto]].
      intros (? & ? & [= <-] & _ & Hex' & _ & Hne).
      rewrite Hex in Hex'. by injection Hex' as <-.
    + simpl. split; [split; [intros _|done]|split; [|done]].
      * by exists bytes, rawText.
      * intros _. by exists bytes, rawText, summary.
Qed.

Lemma POST_ok_iff_witness :
  status (POST basicLatin (λ _, inr doc_controls)
               (inr (BlobEntry [37%N; 80%N; 68%N; 70%N]))) = 200%N.
Proof.
  apply (proj1 (POST_ok_iff basicLatin (λ _, inr doc_controls)
                  (inr (BlobEntry [37%N; 80%N; 68%N; 70%N])))).
  exists [37%N; 80%N; 68%N; 70%N], doc_controls.
  split; [reflexivity|]. split; [vm_compute; discriminate|].
  split; [reflexivity|]. split; [vm_compute; lia|].
  vm_compute. discriminate.
Defined.

(** X22: text of 200 code units or more in which no sentence reaches 40
    code units is answered with status 500 and the message of the core's
    error, not with the 422 of too short a text. *)
Theorem POST_no_sentence (U : Unicode)
    (extractText : list N → thrown + jsstring) (bytes : list N)
    (rawText : jsstring) :
  (N.of_nat (length bytes) ≤ MAX_FILE_SIZE)%N →
  extractText bytes = inr rawText →
  200 ≤ length (trim rawText) →
  splitIntoSentences (sanitizeText rawText) = [] →
  POST U extractText (inr (BlobEntry bytes)) =
  {| status := 500; body := MessageBody NO_CONTENT |}.
Proof.
  intros Hfit Hex Hlong Hnil. unfold POST.
  destruct (N.ltb_spec MAX_FILE_SIZE (N.of_nat (length bytes))); [lia|].
  rewrite Hex.
  assert (match rawText with
          | [] => true
          | _ => length (trim rawText) <? 200
          end = false) as ->.
  { destruct rawText; [simpl in Hlong; lia|]. apply Nat.ltb_ge. lia. }
  destruct (summarise_outcome U rawText) as [[_ ->]|[Hne _]]; done.
Qed.

Lemma POST_no_sentence_witness :
  POST basicLatin (λ _, inr doc_short_sentences)
       (inr (BlobEntry [37%N; 80%N; 68%N; 70%N])) =
  {| status := 500; body := MessageBody NO_CONTENT |}.
Proof.
  apply (POST_no_sentence basicLatin _ _ doc_short_sentences).
  - vm_compute. discriminate.
  - reflexivity.
  - vm_compute. lia.
  - vm_compute. reflexivity.
Defined.

(** ** The page *)

(** X23: the label of the file button never has more than 32 code units:
    a name of at most 32 is shown whole, a longer one as its first 29 code
    units and three dots. *)
Theorem fileLabel_length (file : option jsstring) :
  length (fileLabel file) ≤ 32
  ∧ (∀ name, file = Some name → length name ≤ 32 → fileLabel file = name)
  ∧ (∀ name, file = Some name → 32 < length name →
       fileLabel file = take 29 name ++ str "..."
       ∧ length (fileLabel file) = 32).
Proof.
  destruct file as [name|]; simpl.
  - destruct (Nat.ltb_spec 32 (length name)) as [Hlong|Hshort].
    + assert (length (take 29 name ++ str "...") = 32) as Hlen
        by (rewrite length_app, length_take;
            change (length (str "...")) with 3; lia).
      split; [lia|]. split; [intros ? [= <-] ?; lia|].
      by intros ? [= <-] _.
    + split; [done|]. split; [by intros ? [= <-] | intros ? [= <-] ?; lia].
  - split; [vm_compute; lia | split; intros ? [=]].
Qed.

Lemma fileLabel_length_witness :
  32 < length (str "rapport-annuel-version-finale-corrigee.pdf")
  ∧ fileLabel (Some (str "rapport-annuel-version-finale-corrigee.pdf"))
    = str "rapport-annuel-version-finale...".
Proof.
  assert (32 < length (str "rapport-annuel-version-finale-corrigee.pdf"))
    as Hlong by (vm_compute; lia).
  split; [exact Hlong|].
  rewrite (proj1 (proj2 (proj2 (fileLabel_length
    (Some (str "rapport-annuel-version-finale-corrigee.pdf"))))
      _ eq_refl Hlong)).
  reflexivity.
Defined.

Lemma Page_step_consistent (st : Page.State) (ev : Page.event) :
  Page.consistent st → Page.consistent (Page.step st ev).
Proof.
  intros (Hs & He & Hl). unfold Page.consistent.
  destruct ev as [next| |[payload|message|e]]; simpl;
    try destruct (Page.file st) eqn:Hf; simpl;
    (split; [|split]); intros Hst; try done; eauto.
  - destruct (He Hst) as [? _]. eauto.
  - destruct (Hl Hst) as [[? ?] _]. done.
Qed.

(** X24: whatever the user and the network do, in whatever order: when the
    page is in the success state it has a summary, so the results are shown
    exactly in that state; in the error state it has an error message and no
    summary; while loading it has a file and no error message. *)
Theorem Page_consistent (events : list Page.event) :
  Page.consistent (Page.run events)
  ∧ (Page.showsResults (Page.run events) = true ↔
     Page.status (Page.run events) = Page.Success).
Proof.
  assert (Page.consistent (Page.run events)) as Hc.
  { unfold Page.run.
    assert (Page.consistent Page.initial) as Hinit by (by repeat split).
    revert Hinit. generalize Page.initial as st.
    induction events as [|ev events IH]; intros st Hst; simpl; [done|].
    by apply IH, Page_step_consistent. }
  split; [done|]. destruct Hc as (Hs & _ & _). unfold Page.showsResults.
  destruct (Page.status (Page.run events)) eqn:E;
    try (split; [by destruct (Page.summary _) | done]).
  destruct (Hs eq_refl) as [r ->]. done.
Qed.

Lemma Page_consistent_witness :
  Page.showsResults
    (Page.run [Page.Change (Some {| Page.name := footer; Page.bytes := [] |});
               Page.Submit;
               Page.Settle (Page.OkPayload
                 {| titleSuggestion := DEFAULT_TITLE;
                    thesis := footer;
                    keyPoints := [footer];
                    callToAction := CALL_TO_ACTION_LEAD ++ footer |})])
  = true.
Proof. by apply (proj2 (Page_consistent _)). Defined.

(** ** Key points of distinct sentences *)

(** X25: when no sentence occurs twice among the sentences of a document,
    the summary has as many key points as the smaller of 6 and the number of
    sentences, and no key point occurs twice. *)
Theorem summarise_distinct (U : Unicode) (text : jsstring) (r : Summary) :
  summarise U text = Returns r →
  NoDup (segment text) →
  length (keyPoints r) = 6 `min` length (segment text)
  ∧ length (keyPoints r) ≤ 6
  ∧ NoDup (keyPoints r).
Proof.
  intros Hr Hnd.
  pose proof (keyPoints_members U text r Hr) as (Hsub & _ & _).
  apply summarise_Returns in Hr as (_ & Hkey & _).
  assert (length (keyPoints r) = 6 `min` length (segment text)) as Hlen.
  { rewrite Hkey. unfold selectKeyPoints.
    by rewrite pickTopSentences_NoDup_length. }
  split; [done|]. split; [lia|].
  by apply (sublist_NoDup _ (segment text)).
Qed.

Lemma summarise_distinct_witness :
  ∃ r, summarise basicLatin doc_three = Returns r
       ∧ length (keyPoints r) = 3.
Proof.
  assert (∃ r, summarise basicLatin doc_three = Returns r) as [r Hr].
  { eexists. vm_compute. reflexivity. }
  exists r. split; [exact Hr|].
  rewrite (proj1 (summarise_distinct basicLatin doc_three r Hr
    ltac:(vm_compute; repeat constructor; intros H;
          repeat (apply elem_of_cons in H as [H|H]; [discriminate H|]);
          by apply elem_of_nil in H))).
  reflexivity.
Defined.
